(** * dll-proxy-server: the per-connection state machine and its registry

    A shallow embedding of [src/main.cpp]: the slots of [ProxyConnection]
    ([terminate], [downStreamReadyRead], [upStreamReadyRead], the two
    lambdas handed to [QHostInfo::lookupHost] and to the [connected]
    signal) and of [ProxyServer] ([incomingConnection],
    [onConnectionTerminate]) become functions on explicit state.

    The program is event driven.  What Qt does around the slots (buffering
    bytes, blocking signals, queueing host lookups, deferred deletion) is
    written out in the modules [Qt] and [EventLoop]; every such definition
    says which documented Qt behaviour it stands for. *)

From Stdlib Require Import ZArith Lia Bool Ascii String List.
From Stdlib Require Import Decimal DecimalString DecimalPos DecimalZ.
From Stdlib Require DecimalFacts.
From stdpp Require Import base option list gmap strings.


Local Open Scope Z_scope.

(** ** Characters and byte strings *)

Module Chars.

Definition CR : ascii := "013"%char.
Definition LF : ascii := "010"%char.
Definition NUL : ascii := "000"%char.
Definition CRLF : string := String CR (String LF EmptyString).

(** [QChar::digitValue] on a Latin-1 character. *)
Definition digitValue (c : ascii) : option Z :=
  let n := Z.of_nat (nat_of_ascii c) in
  if (48 <=? n) && (n <=? 57) then Some (n - 48) else None.

Definition is_digit (c : ascii) : bool :=
  match digitValue c with Some _ => true | None => false end.

Fixpoint all_chars (p : ascii -> bool) (s : string) : bool :=
  match s with
  | EmptyString => true
  | String c r => p c && all_chars p r
  end.

Definition all_digits : string -> bool := all_chars is_digit.

Definition ascii_eqb (a b : ascii) : bool := Ascii.eqb a b.

Definition code (c : ascii) : Z := Z.of_nat (nat_of_ascii c).

(** The control characters: below the space, and DEL. *)
Definition is_control (c : ascii) : bool := (code c <? 32) || (code c =? 127).

(** [contains s c]: the character [c] occurs in [s]. *)
Definition contains (s : string) (c : ascii) : bool :=
  negb (all_chars (fun x => negb (ascii_eqb x c)) s).

(** [infix p s]: [p] occurs in [s] as a contiguous substring. *)
Fixpoint infix (p s : string) : bool :=
  String.prefix p s ||
  match s with
  | EmptyString => false
  | String _ r => infix p r
  end.

End Chars.

(** ** The parts of Qt the program calls *)

Module Qt.
Import Chars.

(** *** QString *)

(** [QString::number(int)], which [QString::arg(int)] substitutes: the
    decimal digits, with a leading minus sign for a negative value. *)
Definition number (n : Z) : string := NilZero.string_of_int (Z.to_int n).

(** Scanner of [QString::arg]: a place marker is a percent sign, an
    optional [L], and one or two decimal digits.  A percent sign that no
    digit follows is ordinary text, and the character after it is
    scanned again. *)
Inductive ArgToken :=
| TChar (c : ascii)
| TMarker (n : Z) (text : string).

Inductive ScanState :=
| SText
| SPercent
| SPercentL
| SDigit (locale : bool) (d : Z) (c : ascii).

Definition marker_text (locale : bool) (digits : string) : string :=
  String "%" (if locale then String "L" digits else digits).

Definition flush_scan (st : ScanState) : list ArgToken :=
  match st with
  | SText => []
  | SPercent => [TChar "%"]
  | SPercentL => [TChar "%"; TChar "L"]
  | SDigit l d c => [TMarker d (marker_text l (String c EmptyString))]
  end.

Fixpoint scan (st : ScanState) (s : string) : list ArgToken :=
  match s with
  | EmptyString => flush_scan st
  | String c r =>
      let text_step :=
        if ascii_eqb c "%" then scan SPercent r else TChar c :: scan SText r in
      match st with
      | SText => text_step
      | SPercent =>
          if ascii_eqb c "L" then scan SPercentL r
          else match digitValue c with
               | Some d => scan (SDigit false d c) r
               | None => TChar "%" :: text_step
               end
      | SPercentL =>
          match digitValue c with
          | Some d => scan (SDigit true d c) r
          | None => TChar "%" :: TChar "L" :: text_step
          end
      | SDigit l d c1 =>
          match digitValue c with
          | Some d2 =>
              TMarker (10 * d + d2)
                      (marker_text l (String c1 (String c EmptyString)))
                :: scan SText r
          | None =>
              TMarker d (marker_text l (String c1 EmptyString)) :: text_step
          end
      end
  end.

Fixpoint lowest_marker (ts : list ArgToken) : option Z :=
  match ts with
  | [] => None
  | TChar _ :: r => lowest_marker r
  | TMarker n _ :: r =>
      match lowest_marker r with
      | Some m => Some (Z.min n m)
      | None => Some n
      end
  end.

Fixpoint render (m : Z) (a : string) (ts : list ArgToken) : string :=
  match ts with
  | [] => EmptyString
  | TChar c :: r => String c (render m a r)
  | TMarker n text :: r =>
      (if n =? m then a else text) +:+ render m a r
  end.

(** [QString::arg(a)]: every occurrence of the lowest-numbered place
    marker is replaced by [a]; a string without marker is returned as it
    is. *)
Definition arg (a : string) (s : string) : string :=
  let ts := scan SText s in
  match lowest_marker ts with
  | Some m => render m a ts
  | None => s
  end.

(** [QString::toInt] on a string of decimal digits: the value, or [0]
    when it does not fit an [int]. *)
Fixpoint decimal_value (acc : Z) (s : string) : Z :=
  match s with
  | EmptyString => acc
  | String c r =>
      match digitValue c with
      | Some d => decimal_value (10 * acc + d) r
      | None => acc
      end
  end.

Definition INT_MAX : Z := 2147483647.

Definition toInt (s : string) : Z :=
  let v := decimal_value 0 s in
  if v <=? INT_MAX then v else 0.

(** Conversion of an [int] argument to the [quint16] port parameter of
    [QAbstractSocket::connectToHost]. *)
Definition to_quint16 (n : Z) : Z := n mod 65536.

(** Conversion of a [qintptr] to [int] ([static_cast<int>]). *)
Definition to_int (n : Z) : Z := (n + 2147483648) mod 4294967296 - 2147483648.

(** *** QRegularExpression, for the one pattern of the program *)

(** [QString(const char* )] stops at the first NUL. *)
Fixpoint c_str (s : string) : string :=
  match s with
  | EmptyString => EmptyString
  | String c r => if ascii_eqb c NUL then EmptyString else String c (c_str r)
  end.

(** The text before and after the last colon. *)
Fixpoint split_last_colon (s : string) : option (string * string) :=
  match s with
  | EmptyString => None
  | String c r =>
      match split_last_colon r with
      | Some (h, p) => Some (String c h, p)
      | None => if ascii_eqb c ":" then Some (EmptyString, r) else None
      end
  end.

(** [$] also matches before a line feed that ends the subject. *)
Fixpoint drop_final_LF (s : string) : string :=
  match s with
  | EmptyString => EmptyString
  | String c EmptyString => if ascii_eqb c LF then EmptyString else s
  | String c r => String c (drop_final_LF r)
  end.

(** The match of the program's one regular expression (line 216: start
    of subject, a greedy group of any characters, a colon, a group of one
    or more decimal digits, end of subject), returning the captures 1 and
    2 when there is a match.  The greedy first group gives up characters
    until what follows the colon is a run of digits up to the end; as
    digits hold no colon, that colon is the last one.  The dot does not
    match a line feed. *)
Definition match_host_port (subject : string) : option (string * string) :=
  match split_last_colon (drop_final_LF subject) with
  | Some (h, p) =>
      if negb (contains h LF) && all_digits p && negb (String.eqb p EmptyString)
      then Some (h, p) else None
  | None => None
  end.

End Qt.

(** ** The request parser's interface

    [httpparser::Request] and the result codes of
    [httpparser::HttpRequestParser::parse].  The tokenizer itself is an
    external library; the slots below take it as a parameter. *)

Module Http.

Record Request := mkRequest {
  method : string;
  uri : string;
  versionMajor : Z;
  versionMinor : Z;
  headers : list (string * string);
  content : string;
  keepAlive : bool
}.

Inductive ParseResult :=
| ParsingCompleted
| ParsingIncomplete
| ParsingError.

Definition Parser : Type := string -> ParseResult * Request.

Definition completed (r : ParseResult) : bool :=
  match r with ParsingCompleted => true | _ => false end.

End Http.

(** ** Sockets

    A [QTcpSocket] as the program sees it: the state it reads with
    [state()], the flag set by [blockSignals], the bytes waiting to be
    read, and the calls the program has made on it, oldest first. *)

Module Socket.

Inductive SocketState :=
| UnconnectedState
| HostLookupState
| ConnectingState
| ConnectedState
| BoundState
| ListeningState
| ClosingState.

Inductive SocketError :=
| ConnectionRefusedError
| RemoteHostClosedError
| HostNotFoundError
| SocketTimeoutError
| NetworkError
| OperationError.

Definition QHostAddress : Type := string.

Inductive Call :=
| BlockSignals (b : bool)
| DisconnectFromHost
| Close
| Write (data : string)
| Flush
| ConnectToHost (address : QHostAddress) (port : Z).

Record QTcpSocket := mkSocket {
  state : SocketState;
  signalsBlocked : bool;
  isOpen : bool;
  bytesAvailable : string;
  calls : list Call
}.

Definition is_connected (st : SocketState) : bool :=
  match st with ConnectedState => true | _ => false end.

(** A connect attempt is refused by Qt while the socket is looking up,
    connecting, connected or closing. *)
Definition busy (st : SocketState) : bool :=
  match st with
  | HostLookupState | ConnectingState | ConnectedState | ClosingState => true
  | _ => false
  end.

(** [new QTcpSocket]. *)
Definition fresh : QTcpSocket :=
  mkSocket UnconnectedState false false EmptyString [].

(** A socket that adopted a connected descriptor with
    [setSocketDescriptor]. *)
Definition adopted : QTcpSocket :=
  mkSocket ConnectedState false true EmptyString [].

Definition blockSignals (b : bool) (s : QTcpSocket) : QTcpSocket :=
  mkSocket (state s) b (isOpen s) (bytesAvailable s) (calls s ++ [BlockSignals b]).

(** With nothing left to send the connection is gone when the call
    returns. *)
Definition disconnectFromHost (s : QTcpSocket) : QTcpSocket :=
  mkSocket UnconnectedState (signalsBlocked s) (isOpen s) (bytesAvailable s)
           (calls s ++ [DisconnectFromHost]).

Definition close (s : QTcpSocket) : QTcpSocket :=
  mkSocket UnconnectedState (signalsBlocked s) false EmptyString
           (calls s ++ [Close]).

Definition readAll (s : QTcpSocket) : string * QTcpSocket :=
  (bytesAvailable s,
   mkSocket (state s) (signalsBlocked s) (isOpen s) EmptyString (calls s)).

Definition write (data : string) (s : QTcpSocket) : QTcpSocket :=
  mkSocket (state s) (signalsBlocked s) (isOpen s) (bytesAvailable s)
           (calls s ++ [Write data]).

Definition flush (s : QTcpSocket) : QTcpSocket :=
  mkSocket (state s) (signalsBlocked s) (isOpen s) (bytesAvailable s)
           (calls s ++ [Flush]).

(** [connectToHost(address, port)]: the attempt starts and its outcome
    arrives later as an event, unless the socket is busy, in which case
    Qt leaves the socket as it is and reports an error. *)
Definition connectToHost (a : QHostAddress) (port : Z) (s : QTcpSocket)
  : QTcpSocket :=
  if busy (state s)
  then mkSocket (state s) (signalsBlocked s) (isOpen s) (bytesAvailable s)
                (calls s ++ [ConnectToHost a (Qt.to_quint16 port)])
  else mkSocket ConnectingState (signalsBlocked s) true (bytesAvailable s)
                (calls s ++ [ConnectToHost a (Qt.to_quint16 port)]).

(** What Qt does to a socket on its own. *)
Definition receive (data : string) (s : QTcpSocket) : QTcpSocket :=
  mkSocket (state s) (signalsBlocked s) (isOpen s) (bytesAvailable s +:+ data)
           (calls s).

Definition set_state (st : SocketState) (s : QTcpSocket) : QTcpSocket :=
  mkSocket st (signalsBlocked s) (isOpen s) (bytesAvailable s) (calls s).

(** Views of the call log. *)
Definition written (s : QTcpSocket) : list string :=
  omap (fun c => match c with Write d => Some d | _ => None end) (calls s).

Definition connectCalls (s : QTcpSocket) : list (QHostAddress * Z) :=
  omap (fun c => match c with ConnectToHost a p => Some (a, p) | _ => None end)
       (calls s).

Definition closeCalls (s : QTcpSocket) : nat :=
  length (omap (fun c => match c with Close => Some c | _ => None end)
               (calls s)).

End Socket.

(** ** ProxyConnection: one session *)

Module ProxyConnection.
Import Chars Http Socket.

Definition kConnect : string := "CONNECT".
Definition kGet : string := "GET".
Definition kPut : string := "PUT".
Definition kPost : string := "POST".
Definition kHead : string := "HEAD".
Definition kDelete : string := "DELETE".

(** Set by [startServer] before the server listens. *)
Definition applicationName : string := "DllProxyServer".
Definition applicationVersion : string := "1.0.0".

(** What a pending [QHostInfo::lookupHost] holds: the name looked up and
    the values its callback captured. *)
Record PendingLookup := mkLookup {
  lookup_host : string;
  lookup_port : Z;
  lookup_request : Request
}.

(** The [qWarning] lines of the session. *)
Inductive Warning :=
| DownStreamError
| UpStreamError
| HostLookupFailed
| InvalidUri
| ParseFailed (data : string).

(** The object: its members, the flag of [QObject::blockSignals] on the
    object itself, the lambdas connected to the upstream [connected]
    signal (each is determined by the request it captured, in connection
    order), the host lookups in flight, and the warnings logged. *)
Record ProxyConnection := mkConnection {
  _id : Z;
  _downStream : QTcpSocket;
  _upStream : QTcpSocket;
  objectSignalsBlocked : bool;
  connectedSlots : list Request;
  lookups : list PendingLookup;
  warnings : list Warning
}.

(** A slot returns the object and the [terminated(id)] signals it
    emitted. *)
Definition Emitted : Type := list Z.

Definition onDown (f : QTcpSocket -> QTcpSocket) (c : ProxyConnection)
  : ProxyConnection :=
  mkConnection (_id c) (f (_downStream c)) (_upStream c)
               (objectSignalsBlocked c) (connectedSlots c) (lookups c)
               (warnings c).

Definition onUp (f : QTcpSocket -> QTcpSocket) (c : ProxyConnection)
  : ProxyConnection :=
  mkConnection (_id c) (_downStream c) (f (_upStream c))
               (objectSignalsBlocked c) (connectedSlots c) (lookups c)
               (warnings c).

Definition qWarning (w : Warning) (c : ProxyConnection) : ProxyConnection :=
  mkConnection (_id c) (_downStream c) (_upStream c)
               (objectSignalsBlocked c) (connectedSlots c) (lookups c)
               (warnings c ++ [w]).

Definition lookupHost (k : PendingLookup) (c : ProxyConnection)
  : ProxyConnection :=
  mkConnection (_id c) (_downStream c) (_upStream c)
               (objectSignalsBlocked c) (connectedSlots c) (lookups c ++ [k])
               (warnings c).

Definition connectSlot (r : Request) (c : ProxyConnection) : ProxyConnection :=
  mkConnection (_id c) (_downStream c) (_upStream c)
               (objectSignalsBlocked c) (connectedSlots c ++ [r]) (lookups c)
               (warnings c).

Definition set_lookups (l : list PendingLookup) (c : ProxyConnection)
  : ProxyConnection :=
  mkConnection (_id c) (_downStream c) (_upStream c)
               (objectSignalsBlocked c) (connectedSlots c) l (warnings c).

Definition set_objectSignalsBlocked (b : bool) (c : ProxyConnection)
  : ProxyConnection :=
  mkConnection (_id c) (_downStream c) (_upStream c) b (connectedSlots c)
               (lookups c) (warnings c).

(** The constructor (lines 172-184). *)
Definition new (downStream : QTcpSocket) (id : Z) : ProxyConnection :=
  mkConnection id downStream fresh false [] [] [].

(** [Q_EMIT terminated(_id)]: nothing is emitted by an object whose
    signals are blocked. *)
Definition emit_terminated (c : ProxyConnection) : Emitted :=
  if objectSignalsBlocked c then [] else [_id c].

(** [ProxyConnection::terminate] (lines 188-197). *)
Definition terminate (c : ProxyConnection) : ProxyConnection * Emitted :=
  let c := onDown (blockSignals true) c in
  let c := onUp (blockSignals true) c in
  let c := onDown disconnectFromHost c in
  let c := onDown close c in
  let c := onUp disconnectFromHost c in
  let c := onUp close c in
  (c, emit_terminated c).

Definition supported (m : string) : bool :=
  String.eqb m kConnect || String.eqb m kGet || String.eqb m kPut
  || String.eqb m kPost || String.eqb m kHead || String.eqb m kDelete.

Definition responseTemplate : string :=
  "HTTP/%1.%2 200 Connection established" +:+ CRLF
    +:+ "Proxy-agent: %3/%4" +:+ CRLF +:+ CRLF.

(** Lines 230-234. *)
Definition response (request : Request) : string :=
  Qt.arg applicationVersion
    (Qt.arg applicationName
       (Qt.arg (Qt.number (versionMinor request))
          (Qt.arg (Qt.number (versionMajor request)) responseTemplate))).

(** The lambda connected to [connected] (lines 228-238). *)
Definition upStreamConnected (request : Request) (c : ProxyConnection)
  : ProxyConnection :=
  if String.eqb (method request) kConnect
  then onDown flush (onDown (write (response request)) c)
  else c.

(** The error lambdas (lines 176-178 and 181-183). *)
Definition downStreamError (c : ProxyConnection) : ProxyConnection :=
  qWarning DownStreamError c.

Definition upStreamError (c : ProxyConnection) : ProxyConnection :=
  qWarning UpStreamError c.

(** The callback of [lookupHost] (lines 222-243).  A refused
    [connectToHost] makes the socket emit [errorOccurred] before the call
    returns. *)
Definition lookupFinished (k : PendingLookup) (addresses : list QHostAddress)
    (c : ProxyConnection) : ProxyConnection * Emitted :=
  match addresses with
  | first :: _ =>
      let refused := busy (state (_upStream c)) in
      let c := onUp (connectToHost first (lookup_port k)) c in
      let c := if refused && negb (signalsBlocked (_upStream c))
               then upStreamError c else c in
      (connectSlot (lookup_request k) c, [])
  | [] => terminate (qWarning HostLookupFailed c)
  end.

(** [ProxyConnection::upStreamReadyRead] (lines 259-262). *)
Definition upStreamReadyRead (c : ProxyConnection) : ProxyConnection :=
  let (data, up) := readAll (_upStream c) in
  let c := onUp (fun _ => up) c in
  onDown flush (onDown (write data) c).

Section WithParser.

Variable parse : Parser.

(** [ProxyConnection::downStreamReadyRead] (lines 199-257). *)
Definition downStreamReadyRead (c : ProxyConnection)
  : ProxyConnection * Emitted :=
  let (data, down) := readAll (_downStream c) in
  let c := onDown (fun _ => down) c in
  if negb (is_connected (state (_upStream c))) then
    let (result, request) := parse data in
    if completed result then
      if supported (method request) then
        match Qt.match_host_port (Qt.c_str (uri request)) with
        | Some (host, port) =>
            (lookupHost (mkLookup host (Qt.toInt port) request) c, [])
        | None => terminate (qWarning InvalidUri c)
        end
      else (c, [])
    else terminate (qWarning (ParseFailed data) c)
  else (onUp flush (onUp (write data) c), []).

End WithParser.

End ProxyConnection.

(** ** The event loop around one session

    Qt calls a slot when the object it is connected to emits the signal,
    and an object whose signals are blocked emits nothing.  An event below
    is one thing Qt reports about a session: bytes arrived, the peer went
    away, an error, the connect attempt succeeded, a host lookup
    finished. *)

Module EventLoop.
Import Http Socket ProxyConnection.

Inductive Event :=
| DownReadyRead (data : string)
| DownDisconnected
| DownErrorOccurred (e : SocketError)
| UpReadyRead (data : string)
| UpDisconnected
| UpErrorOccurred (e : SocketError)
| UpConnected
| LookupResult (n : nat) (addresses : list QHostAddress).

Definition is_connecting (st : SocketState) : bool :=
  match st with ConnectingState => true | _ => false end.

(** What Qt changes before any slot runs.  An error while connecting is
    the failure of the connect attempt and leaves the socket
    unconnected; success is only reported for an attempt in progress. *)
Definition library_side (ev : Event) (c : ProxyConnection) : ProxyConnection :=
  match ev with
  | DownReadyRead d => onDown (receive d) c
  | DownDisconnected => onDown (set_state UnconnectedState) c
  | DownErrorOccurred _ => c
  | UpReadyRead d => onUp (receive d) c
  | UpDisconnected => onUp (set_state UnconnectedState) c
  | UpErrorOccurred _ =>
      if is_connecting (state (_upStream c))
      then onUp (set_state UnconnectedState) c else c
  | UpConnected =>
      if is_connecting (state (_upStream c))
      then onUp (set_state ConnectedState) c else c
  | LookupResult _ _ => c
  end.

(** Whether the event reaches a slot of the session: socket signals are
    subject to [blockSignals] on the socket; the lookup callback is not a
    socket signal. *)
Definition delivered (ev : Event) (c : ProxyConnection) : bool :=
  match ev with
  | DownReadyRead _ | DownDisconnected | DownErrorOccurred _ =>
      negb (signalsBlocked (_downStream c))
  | UpReadyRead _ | UpDisconnected | UpErrorOccurred _ =>
      negb (signalsBlocked (_upStream c))
  | UpConnected =>
      negb (signalsBlocked (_upStream c)) && is_connecting (state (_upStream c))
  | LookupResult _ _ => true
  end.

Definition is_socket_event (ev : Event) : bool :=
  match ev with LookupResult _ _ => false | _ => true end.

Section WithParser.

Variable parse : Parser.

(** The connections made in the constructor and in the lookup
    callback. *)
Definition slot (ev : Event) (c : ProxyConnection)
  : ProxyConnection * Emitted :=
  match ev with
  | DownReadyRead _ => downStreamReadyRead parse c
  | DownDisconnected => terminate c
  | DownErrorOccurred _ => (downStreamError c, [])
  | UpReadyRead _ => (upStreamReadyRead c, [])
  | UpDisconnected => terminate c
  | UpErrorOccurred _ => (upStreamError c, [])
  | UpConnected =>
      (foldl (fun c r => upStreamConnected r c) c (connectedSlots c), [])
  | LookupResult n addresses =>
      match lookups c !! n with
      | Some k =>
          lookupFinished k addresses (set_lookups (delete n (lookups c)) c)
      | None => (c, [])
      end
  end.

Definition dispatch (ev : Event) (c : ProxyConnection)
  : ProxyConnection * Emitted :=
  if delivered ev c then slot ev (library_side ev c)
  else (library_side ev c, []).

Fixpoint run (evs : list Event) (c : ProxyConnection)
  : ProxyConnection * Emitted :=
  match evs with
  | [] => (c, [])
  | ev :: rest =>
      let (c1, e1) := dispatch ev c in
      let (c2, e2) := run rest c1 in
      (c2, (e1 ++ e2)%list)
  end.

End WithParser.

End EventLoop.

(** ** ProxyServer: the acceptor and its registry *)

Module ProxyServer.
Import Http Socket ProxyConnection EventLoop.

Inductive ServerLog :=
| FailedToSetSocketDescriptor
| ActiveConnections (n : nat).

(** [_connections] maps a session id to the address of the session
    object it shares.  [objects] holds the session objects that exist;
    [deferred] the ones whose last shared pointer was dropped, which
    [QObject::deleteLater] destroys when control is back in the event
    loop.  [notifications] records each call of [onConnectionTerminate]. *)
Record ProxyServer := mkServer {
  _connections : gmap Z nat;
  objects : gmap nat ProxyConnection;
  deferred : list nat;
  allocated : nat;
  notifications : list Z;
  log : list ServerLog
}.

Definition listening : ProxyServer := mkServer ∅ ∅ [] 0%nat [] [].

Definition qInfo_size (s : ProxyServer) : ProxyServer :=
  mkServer (_connections s) (objects s) (deferred s) (allocated s)
           (notifications s)
           (log s ++ [ActiveConnections (size (_connections s))]).

(** [ProxyServer::incomingConnection] (lines 148-161); [adopt] is the
    result of [setSocketDescriptor]. *)
Definition incomingConnection (handle : Z) (adopt : bool) (s : ProxyServer)
  : ProxyServer :=
  let id := Qt.to_int handle in
  qInfo_size
    (if adopt then
       let p := allocated s in
       mkServer (<[id := p]> (_connections s))
                (<[p := new adopted id]> (objects s))
                (deferred s ++ option_list (_connections s !! id))
                (S p) (notifications s) (log s)
     else
       mkServer (_connections s) (objects s) (deferred s) (allocated s)
                (notifications s) (log s ++ [FailedToSetSocketDescriptor])).

(** [ProxyServer::onConnectionTerminate] (lines 163-170). *)
Definition onConnectionTerminate (id : Z) (s : ProxyServer) : ProxyServer :=
  qInfo_size
    (match _connections s !! id with
     | Some p =>
         mkServer (delete id (_connections s))
                  (alter (set_objectSignalsBlocked true) p (objects s))
                  (deferred s ++ [p]) (allocated s)
                  (notifications s ++ [id]) (log s)
     | None =>
         mkServer (_connections s) (objects s) (deferred s) (allocated s)
                  (notifications s ++ [id]) (log s)
     end).

Inductive ServerEvent :=
| Incoming (handle : Z) (adopt : bool)
| ToSession (p : nat) (ev : Event)
| DeferredDelete.

Definition set_object (p : nat) (c : ProxyConnection) (s : ProxyServer)
  : ProxyServer :=
  mkServer (_connections s) (<[p := c]> (objects s)) (deferred s)
           (allocated s) (notifications s) (log s).

Definition destroy_deferred (s : ProxyServer) : ProxyServer :=
  mkServer (_connections s)
           (foldr (fun p m => delete p m) (objects s) (deferred s))
           [] (allocated s) (notifications s) (log s).

(** A slot [f] runs on the object at [p].  A call for an object that no
    longer exists is dropped; [terminated] is connected to
    [onConnectionTerminate] for every session (line 155) and is delivered
    before the emitting slot returns. *)
Definition invoke (p : nat) (f : ProxyConnection -> ProxyConnection * Emitted)
    (s : ProxyServer) : ProxyServer :=
  match objects s !! p with
  | Some c =>
      let (c', emitted) := f c in
      foldl (fun s id => onConnectionTerminate id s) (set_object p c' s) emitted
  | None => s
  end.

Section WithParser.

Variable parse : Parser.

(** One event of the server's thread. *)
Definition step (ev : ServerEvent) (s : ProxyServer) : ProxyServer :=
  match ev with
  | Incoming handle adopt => incomingConnection handle adopt s
  | ToSession p e => invoke p (dispatch parse e) s
  | DeferredDelete => destroy_deferred s
  end.

Definition steps (evs : list ServerEvent) (s : ProxyServer) : ProxyServer :=
  foldl (fun s ev => step ev s) s evs.

End WithParser.

End ProxyServer.

(** ** A request-line tokenizer for the scenarios

    A stand-in for the external [httpparser] library, used only where a
    scenario needs the parser parameter instantiated: a request line
    (method, target, [HTTP/<major>.<minor>]), header lines [name: value],
    and the empty line that ends the head.  Like the library it reads the
    buffer character by character and stops at the end of the head. *)

Module Tokenizer.
Import Chars Http.

(** The separators of RFC 2616, by character code. *)
Definition is_special (c : ascii) : bool :=
  existsb (Z.eqb (code c))
          [40; 41; 60; 62; 64; 44; 59; 58; 92; 34; 47; 91; 93; 63; 61; 123;
           125; 32; 9].

Definition is_token (c : ascii) : bool :=
  (code c <? 128) && negb (is_control c) && negb (is_special c).

Definition snoc (s : string) (c : ascii) : string := s +:+ String c EmptyString.

Inductive State :=
| Method (m : string)
| Uri (m u : string)
| Version (m u : string) (seen : string)
| Major (m u : string) (major : option Z)
| Minor (m u : string) (major : Z) (minor : option Z)
| LineEnd (r : Request)
| HeaderStart (r : Request)
| HeaderName (r : Request) (name : string)
| HeaderValue (r : Request) (name value : string)
| FinalLF (r : Request).

Definition empty : Request := mkRequest EmptyString EmptyString 0 0 [] EmptyString false.

Definition add_header (r : Request) (name value : string) : Request :=
  mkRequest (method r) (uri r) (versionMajor r) (versionMinor r)
            (headers r ++ [(name, value)]) (content r) (keepAlive r).

Definition head (m u : string) (major minor : Z) : Request :=
  mkRequest m u major minor [] EmptyString
            ((1 <? major) || ((major =? 1) && (1 <=? minor))).

Definition partial (st : State) : Request :=
  match st with
  | Method m => mkRequest m EmptyString 0 0 [] EmptyString false
  | Uri m u | Version m u _ | Major m u _ =>
      mkRequest m u 0 0 [] EmptyString false
  | Minor m u major _ => mkRequest m u major 0 [] EmptyString false
  | LineEnd r | HeaderStart r | HeaderName r _ | HeaderValue r _ _
  | FinalLF r => r
  end.

Inductive Outcome :=
| Next (st : State)
| Done (r : Request)
| Bad.

Definition consume (st : State) (c : ascii) : Outcome :=
  match st with
  | Method m =>
      if ascii_eqb c " " then
        if String.eqb m EmptyString then Bad else Next (Uri m EmptyString)
      else if is_token c then Next (Method (snoc m c)) else Bad
  | Uri m u =>
      if ascii_eqb c " " then
        if String.eqb u EmptyString then Bad else Next (Version m u EmptyString)
      else if is_control c then Bad else Next (Uri m (snoc u c))
  | Version m u seen =>
      let seen' := snoc seen c in
      if String.eqb seen' "HTTP/" then Next (Major m u None)
      else if String.prefix seen' "HTTP/" then Next (Version m u seen')
      else Bad
  | Major m u major =>
      match digitValue c, major with
      | Some d, None => Next (Major m u (Some d))
      | Some d, Some v => Next (Major m u (Some (10 * v + d)))
      | None, Some v => if ascii_eqb c "." then Next (Minor m u v None) else Bad
      | None, None => Bad
      end
  | Minor m u major minor =>
      match digitValue c, minor with
      | Some d, None => Next (Minor m u major (Some d))
      | Some d, Some v => Next (Minor m u major (Some (10 * v + d)))
      | None, Some v =>
          if ascii_eqb c CR then Next (LineEnd (head m u major v)) else Bad
      | None, None => Bad
      end
  | LineEnd r => if ascii_eqb c LF then Next (HeaderStart r) else Bad
  | HeaderStart r =>
      if ascii_eqb c CR then Next (FinalLF r)
      else if is_token c then Next (HeaderName r (String c EmptyString))
      else Bad
  | HeaderName r name =>
      if ascii_eqb c ":" then Next (HeaderValue r name EmptyString)
      else if is_token c then Next (HeaderName r (snoc name c)) else Bad
  | HeaderValue r name value =>
      if ascii_eqb c CR then Next (LineEnd (add_header r name value))
      else if is_control c then Bad
      else if ascii_eqb c " " && String.eqb value EmptyString
           then Next (HeaderValue r name value)
      else Next (HeaderValue r name (snoc value c))
  | FinalLF r => if ascii_eqb c LF then Done r else Bad
  end.

Fixpoint feed (st : State) (s : string) : ParseResult * Request :=
  match s with
  | EmptyString => (ParsingIncomplete, partial st)
  | String c rest =>
      match consume st c with
      | Next st' => feed st' rest
      | Done r => (ParsingCompleted, r)
      | Bad => (ParsingError, partial st)
      end
  end.

Definition parse : Parser := feed (Method EmptyString).

(** A request with a head and no header. *)
Definition request_line (m target version : string) : string :=
  m +:+ " " +:+ target +:+ " " +:+ version +:+ CRLF +:+ CRLF.

End Tokenizer.

(** ** Notions the statements are written with *)

Module Notions.
Import Chars Http Qt Socket ProxyConnection EventLoop.

(** A string without percent sign. *)
Definition plain (s : string) : bool :=
  all_chars (fun c => negb (ascii_eqb c "%")) s.

(** A string as the tokens of text without place marker. *)
Fixpoint chars (s : string) : list ArgToken :=
  match s with
  | EmptyString => []
  | String c r => TChar c :: chars r
  end.

(** The reply to CONNECT in the words of the wire contract: the protocol
    version of the request, the status line, and the agent line with the
    application's name and version. *)
Definition reply_text (major minor : Z) : string :=
  "HTTP/" +:+ number major +:+ "." +:+ number minor
    +:+ " 200 Connection established" +:+ CRLF
    +:+ "Proxy-agent: " +:+ applicationName +:+ "/" +:+ applicationVersion
    +:+ CRLF +:+ CRLF.

(** A target as the tokenizer delivers it holds no control character. *)
Definition control_free (s : string) : bool :=
  all_chars (fun c => negb (is_control c)) s.

(** A target of the form [host:port]: some text, a colon, and one or
    more decimal digits up to the end. *)
Definition host_port_form (u h p : string) : Prop :=
  u = h +:+ ":" +:+ p /\ p <> EmptyString /\ all_digits p = true.

(** A target that shows a scheme, a path or a query. *)
Definition has_scheme_path_or_query (u : string) : bool :=
  infix "://" u || contains u "/" || contains u "?".

(** Both sockets have their signals blocked, as [terminate] leaves
    them. *)
Definition unsubscribed (c : ProxyConnection) : bool :=
  signalsBlocked (_downStream c) && signalsBlocked (_upStream c).

(** The session with the bytes waiting on its downstream socket read. *)
Definition downstream_read (c : ProxyConnection) : ProxyConnection :=
  onDown (fun s => snd (readAll s)) c.

Section WithParser.

Variable parse : Parser.

(** The downstream reads of a run that happen while the upstream socket
    is in the connected state, each with the bytes it finds. *)
Fixpoint relayed_upstream (evs : list Event) (c : ProxyConnection)
  : list string :=
  match evs with
  | [] => []
  | ev :: rest =>
      (match ev with
       | DownReadyRead d =>
           if delivered ev c && is_connected (state (_upStream c))
           then [bytesAvailable (_downStream c) +:+ d] else []
       | _ => []
       end ++ relayed_upstream rest (fst (dispatch parse ev c)))%list
  end.

End WithParser.

End Notions.

(** ** The registry invariant *)

Module Registry.
Import Http Socket ProxyConnection EventLoop ProxyServer.

(** The registry is sound: a registered id leads to a live object that
    carries this id and whose own signals are not blocked, that is not
    awaiting deletion, and that no other id leads to. *)
Definition registry_sound (s : ProxyServer) : Prop :=
  (forall (id : Z) (p : nat),
      _connections s !! id = Some p ->
      (exists c, objects s !! p = Some c
                 /\ _id c = id /\ objectSignalsBlocked c = false)
      /\ (p ∉ deferred s)
      /\ (p < allocated s)%nat)
  /\ (forall (id1 id2 : Z) (p : nat),
         _connections s !! id1 = Some p -> _connections s !! id2 = Some p ->
         id1 = id2)
  /\ (forall p : nat, p ∈ deferred s -> (p < allocated s)%nat).

End Registry.

(** ** The scenarios *)

Module Scenario.
Import Socket ProxyConnection EventLoop ProxyServer.

Definition connect_request : string :=
  Tokenizer.request_line "CONNECT" "host:9999" "HTTP/1.1".

Definition second_connect_request : string :=
  Tokenizer.request_line "CONNECT" "other:8443" "HTTP/1.1".

Definition unresolvable_connect_request : string :=
  Tokenizer.request_line "CONNECT" "bad.invalid:443" "HTTP/1.1".

Definition get_request : string :=
  Tokenizer.request_line "GET" "example.com:80" "HTTP/1.1".

Definition get_path_request : string :=
  Tokenizer.request_line "GET" "/path" "HTTP/1.1".

Definition get_url_request : string :=
  Tokenizer.request_line "GET" "http://example.com:80" "HTTP/1.1".

Definition patch_request : string :=
  Tokenizer.request_line "PATCH" "host:80" "HTTP/1.1".

Definition address : QHostAddress := "10.0.0.1".
Definition other_address : QHostAddress := "10.0.0.2".

(** What the tokenizer makes of three of the requests. *)
Definition connect_head : Http.Request :=
  Http.mkRequest "CONNECT" "host:9999" 1 1 [] EmptyString true.

Definition get_head : Http.Request :=
  Http.mkRequest "GET" "example.com:80" 1 1 [] EmptyString true.

Definition patch_head : Http.Request :=
  Http.mkRequest "PATCH" "host:80" 1 1 [] EmptyString true.

(** A session that has just been accepted. *)
Definition accepted : ProxyConnection := new adopted 7.

(** The session after scenario A: the CONNECT request, one address, the
    connection established. *)
Definition tunnelling : ProxyConnection :=
  fst (run Tokenizer.parse
         [DownReadyRead connect_request; LookupResult 0 [address];
          UpConnected] accepted).

(** The server with that one session. *)
Definition one_session : ProxyServer := incomingConnection 7 true listening.

End Scenario.

(** ** Settings and start-up

    [Settings] (lines 42-46 and 264-277) over a [QSettings] reduced to
    what the program uses of it: the keys and values in memory and the
    ones in the ini file.  No other application writes the file. *)

Module Settings.

Inductive QVariant :=
| Invalid
| VString (s : string)
| VInt (n : Z).

Record Settings := mkSettings {
  values : gmap string QVariant;
  file : gmap string QVariant
}.

Definition kAddress : string := "Address".
Definition kPort : string := "Port".

(** [Settings::Settings(file)]: the file is loaded. *)
Definition open (contents : gmap string QVariant) : Settings :=
  mkSettings contents contents.

Definition contains (key : string) (s : Settings) : bool :=
  match values s !! key with Some _ => true | None => false end.

(** [QSettings::value(key)]: an invalid variant for a missing key. *)
Definition value (key : string) (s : Settings) : QVariant :=
  match values s !! key with Some v => v | None => Invalid end.

Definition setValue (key : string) (v : QVariant) (s : Settings) : Settings :=
  mkSettings (<[key := v]> (values s)) (file s).

(** [QSettings::sync]: what is in memory is written to the file. *)
Definition sync (s : Settings) : Settings :=
  mkSettings (values s) (values s).

(** [Settings::read] (lines 266-277). *)
Definition read (key : string) (defaultValue : QVariant) (s : Settings)
  : QVariant * Settings :=
  let result := defaultValue in
  if contains key s then (value key s, s)
  else (result, sync (setValue key defaultValue s)).


End Settings.

Module Startup.
Import Settings.





Section WithLibrary.

(** [QVariant::toInt] on a string value is the library's conversion. *)
Variable stringToInt : string -> Z.

(** [QHostAddress(text).toString()]: the address a text stands for,
    written out again; empty for a text that is no address. *)
Variable addressText : string -> string.

Definition toInt (v : QVariant) : Z :=
  match v with
  | Invalid => 0
  | VString s => stringToInt s
  | VInt n => n
  end.



End WithLibrary.

End Startup.

(** ** Further notions the statements are written with *)

Module Further.
Import Chars Http Qt Socket ProxyConnection EventLoop ProxyServer Notions.

Definition has_close (l : list Call) : bool :=
  existsb (fun c => match c with Close => true | _ => false end) l.

Definition has_write (l : list Call) : bool :=
  existsb (fun c => match c with Write _ => true | _ => false end) l.

(** A session on which [terminate] has not run: both sockets emit their
    signals and neither has been closed. *)
Definition live (c : ProxyConnection) : bool :=
  negb (signalsBlocked (_downStream c)) && negb (signalsBlocked (_upStream c))
  && negb (has_close (calls (_downStream c)))
  && negb (has_close (calls (_upStream c))).

(** Every registered session is live. *)
Definition registered_live (s : ProxyServer) : Prop :=
  forall (id : Z) (p : nat),
    _connections s !! id = Some p ->
    exists c, objects s !! p = Some c /\ live c = true.

(** No [write] comes after a [close] in a call log. *)
Fixpoint ordered (closed : bool) (l : list Call) : bool :=
  match l with
  | [] => true
  | Close :: r => ordered true r
  | Write _ :: r => negb closed && ordered closed r
  | _ :: r => ordered closed r
  end.

Definition no_write_after_close (l : list Call) : bool := ordered false l.

(** The calls of [terminate] on each socket. *)
Definition teardown : list Call :=
  [BlockSignals true; DisconnectFromHost; Close].

(** What a slot may add to the two call logs on the way from [c] to
    [c']: either the calls of [terminate] on both, or calls without
    [close] that leave the subscriptions alone, with no write after a close
    among them, and in which a write to one socket needs the other socket
    to be subscribed. *)
Definition adds (c c' : ProxyConnection) : Prop :=
  exists ad au : list Call,
    calls (_downStream c') = calls (_downStream c) ++ ad
    /\ calls (_upStream c') = calls (_upStream c) ++ au
    /\ ((ad = teardown /\ au = teardown /\ unsubscribed c' = true)
        \/ (has_close ad = false /\ has_close au = false
            /\ signalsBlocked (_downStream c') = signalsBlocked (_downStream c)
            /\ signalsBlocked (_upStream c') = signalsBlocked (_upStream c)
            /\ ordered false ad = true /\ ordered false au = true
            /\ (signalsBlocked (_upStream c) = true -> has_write ad = false)
            /\ (signalsBlocked (_downStream c) = true ->
                has_write au = false))).

(** The call logs are tidy: no write after a close on either socket, and
    a close on either socket only with both sockets unsubscribed. *)
Definition tidy (c : ProxyConnection) : Prop :=
  no_write_after_close (calls (_downStream c)) = true
  /\ no_write_after_close (calls (_upStream c)) = true
  /\ (has_close (calls (_downStream c)) || has_close (calls (_upStream c))
      = true -> unsubscribed c = true).

(** What the lambdas connected to [connected] do on the downstream
    socket, one request after the other. *)
Definition reply_calls (r : Request) : list Call :=
  if String.eqb (method r) kConnect
  then [Write (reply_text (versionMajor r) (versionMinor r)); Flush]
  else [].

(** The read events of a run, and the bytes each direction brings. *)
Definition is_read (ev : Event) : bool :=
  match ev with DownReadyRead _ | UpReadyRead _ => true | _ => false end.

Definition from_downstream (evs : list Event) : list string :=
  omap (fun ev => match ev with DownReadyRead d => Some d | _ => None end) evs.

Definition from_upstream (evs : list Event) : list string :=
  omap (fun ev => match ev with UpReadyRead d => Some d | _ => None end) evs.

(** A session in which the relay is established: both sockets emit, the
    upstream socket is connected, nothing waits to be read. *)
Definition relaying (c : ProxyConnection) : bool :=
  negb (signalsBlocked (_downStream c)) && negb (signalsBlocked (_upStream c))
  && is_connected (state (_upStream c))
  && String.eqb (bytesAvailable (_downStream c)) EmptyString
  && String.eqb (bytesAvailable (_upStream c)) EmptyString.

End Further.

(** ** The reply on the wire

    The reply to CONNECT written out, with the two version numbers as
    decimal numerals. *)

Module Wire.
Import Chars Qt.



End Wire.

(** ** Further inputs *)

Module Cases.
Import Socket ProxyConnection EventLoop ProxyServer Scenario.

(** The session after the CONNECT request and its lookup, before the
    connection is reported. *)
Definition connecting : ProxyConnection :=
  fst (run Tokenizer.parse
         [DownReadyRead connect_request; LookupResult 0 [address]] accepted).

(** The beginning of a request. *)
Definition partial_request : string := "CONNECT host:9999 HT".

Definition relayed : list Event :=
  [DownReadyRead "ping"; UpReadyRead "pong"; DownReadyRead "bye"].

(** A handle that differs from 7 above the 32 bits of an [int]. *)
Definition far_handle : Z := 7 + 4294967296.



(** A session that waits for the lookup of an unresolvable host. *)
Definition resolving : ProxyConnection :=
  fst (run Tokenizer.parse [DownReadyRead unresolvable_connect_request]
           accepted).

(** An ini file with a port and no address. *)
Definition port_only : gmap string Settings.QVariant :=
  {[ "Port" := Settings.VString "3128" ]}.

End Cases.

(** ** Proof steps used throughout *)

Module Tactics.
Import Chars Qt Socket.

Ltac open_session c :=
  let id := fresh "id" in
  let down := fresh "down" in
  let up := fresh "up" in
  destruct c as [id down up ? ? ? ?];
  destruct down as [? ? ? ? ?]; destruct up as [? ? ? ? ?].

Ltac log_simpl :=
  unfold written, connectCalls, closeCalls; simpl;
  rewrite ?omap_app; simpl; rewrite ?app_nil_r; simpl.

(** One digit of the induction that reads a numeral back. *)
Ltac numeral_step IH :=
  cbn [NilEmpty.string_of_uint decimal_value];
  match goal with
  | |- context [digitValue ?c] =>
      let v := eval vm_compute in (digitValue c) in
      change (digitValue c) with v
  end;
  cbv iota beta; rewrite IH;
  unfold Decimal.rev; cbn [Decimal.revapp Unsigned.usize];
  rewrite (Unsigned.of_lu_revapp _ (_ Nil));
  cbn [Unsigned.of_lu];
  rewrite ?N2Z.inj_add, ?N2Z.inj_mul, ?N2Z.inj_pow, ?N2Z.inj_succ;
  rewrite Z.pow_succ_r by apply N2Z.is_nonneg;
  unfold Decimal.rev;
  repeat match goal with
         | |- context [Z.of_N (?a + 10 * 0)%N] =>
             let v := eval vm_compute in (Z.of_N (a + 10 * 0)%N) in
             change (Z.of_N (a + 10 * 0)%N) with v
         | |- context [Z.of_N (10 * 0)%N] =>
             change (Z.of_N (10 * 0)%N) with 0
         end;
  cbn [Z.of_N]; ring.

End Tactics.

(** ** Facts about the Qt string operations *)

Module QtFacts.
Import Chars Qt Notions.

Lemma append_cons (x : ascii) (a b : string) :
  String x a +:+ b = String x (a +:+ b).
Proof. reflexivity. Qed.

Lemma append_nil (b : string) : EmptyString +:+ b = b.
Proof. reflexivity. Qed.

Lemma append_assoc (a b c : string) : (a +:+ b) +:+ c = a +:+ (b +:+ c).
Proof.
  induction a as [|x a IH]; [reflexivity|].
  rewrite !append_cons. f_equal. exact IH.
Qed.

Lemma plain_append (a b : string) :
  plain (a +:+ b) = plain a && plain b.
Proof.
  unfold plain. induction a as [|x a IH]; [reflexivity|].
  rewrite append_cons. simpl. rewrite IH. now rewrite andb_assoc.
Qed.

Lemma plain_uint (d : uint) : plain (NilEmpty.string_of_uint d) = true.
Proof. induction d; simpl; auto. Qed.

Lemma plain_number (n : Z) : plain (number n) = true.
Proof.
  unfold number, NilZero.string_of_int, NilZero.string_of_uint.
  destruct (Z.to_int n) as [d|d]; destruct d; simpl; auto using plain_uint;
    try (change (plain (String "-" EmptyString) = true); reflexivity);
    apply plain_uint.
Qed.

Lemma scan_plain_prefix (p s : string) :
  plain p = true -> scan SText (p +:+ s) = (chars p ++ scan SText s)%list.
Proof.
  unfold plain. induction p as [|c p IH]; [reflexivity|].
  rewrite append_cons. simpl. intros H. apply andb_prop in H as [Hc Hp].
  destruct (ascii_eqb c "%"); [discriminate|].
  now rewrite (IH Hp).
Qed.

Lemma lowest_marker_chars (p : string) (ts : list ArgToken) :
  lowest_marker (chars p ++ ts) = lowest_marker ts.
Proof. induction p; simpl; auto. Qed.

Lemma render_chars (m : Z) (a p : string) (ts : list ArgToken) :
  render m a (chars p ++ ts) = p +:+ render m a ts.
Proof.
  induction p as [|c p IH]; [reflexivity|].
  rewrite append_cons. simpl. f_equal. exact IH.
Qed.

(** [arg] leaves a prefix without percent sign alone. *)
Lemma arg_plain_prefix (a p s : string) :
  plain p = true -> arg a (p +:+ s) = p +:+ arg a s.
Proof.
  intros H. unfold arg. rewrite (scan_plain_prefix _ _ H).
  rewrite lowest_marker_chars.
  destruct (lowest_marker (scan SText s)); [apply render_chars | reflexivity].
Qed.

End QtFacts.

(** ** The reply to CONNECT, as text *)

Module ReplyFacts.
Import Chars Http Qt Notions QtFacts ProxyConnection.

Lemma plain_head (a : string) : plain a = true -> plain ("HTTP/" +:+ a) = true.
Proof. intros H. rewrite plain_append, H. reflexivity. Qed.

Lemma response_text (request : Request) :
  response request = reply_text (versionMajor request) (versionMinor request).
Proof.
  unfold response, reply_text.
  pose proof (plain_number (versionMajor request)) as Ha.
  pose proof (plain_number (versionMinor request)) as Hb.
  generalize dependent (number (versionMinor request)).
  generalize dependent (number (versionMajor request)).
  intros a Ha b Hb.
  set (t1 := ".%2 200 Connection established" +:+ CRLF
               +:+ "Proxy-agent: %3/%4" +:+ CRLF +:+ CRLF).
  set (t2 := " 200 Connection established" +:+ CRLF
               +:+ "Proxy-agent: %3/%4" +:+ CRLF +:+ CRLF).
  assert (E1 : arg a responseTemplate = ("HTTP/" +:+ a) +:+ t1)
    by reflexivity.
  assert (E2 : arg b t1 = ("." +:+ b) +:+ t2) by reflexivity.
  rewrite E1.
  rewrite (arg_plain_prefix b _ t1 (plain_head a Ha)), E2.
  rewrite <- append_assoc.
  assert (P2 : plain (("HTTP/" +:+ a) +:+ "." +:+ b) = true).
  { rewrite plain_append, (plain_head a Ha), plain_append, Hb. reflexivity. }
  rewrite (arg_plain_prefix applicationName _ t2 P2).
  assert (E3 : arg applicationName t2
               = " 200 Connection established" +:+ CRLF
                   +:+ "Proxy-agent: DllProxyServer/%4" +:+ CRLF +:+ CRLF)
    by reflexivity.
  rewrite E3.
  rewrite (arg_plain_prefix applicationVersion _ _ P2).
  rewrite !append_assoc. reflexivity.
Qed.

End ReplyFacts.

(** ** Facts about the match of the target *)

Module RegexFacts.
Import Chars Qt Notions QtFacts.

Lemma contains_cons (x c : ascii) (r : string) :
  contains (String x r) c = ascii_eqb x c || contains r c.
Proof.
  unfold contains. simpl. destruct (ascii_eqb x c); reflexivity.
Qed.

Lemma ascii_eqb_true (a b : ascii) : ascii_eqb a b = true -> a = b.
Proof. apply Ascii.eqb_eq. Qed.

Lemma split_none (s : string) :
  split_last_colon s = None <-> contains s ":" = false.
Proof.
  induction s as [|c r IH]; [now split|].
  rewrite contains_cons. simpl.
  destruct (split_last_colon r) as [[h p]|].
  - split; [discriminate|]. intros H. apply orb_false_elim in H as [_ H].
    apply IH in H. discriminate.
  - destruct (ascii_eqb c ":"); simpl; [split; discriminate|].
    split; intros _; [now apply IH | reflexivity].
Qed.

Lemma split_last_colon_spec (s h p : string) :
  split_last_colon s = Some (h, p)
  <-> s = h +:+ ":" +:+ p /\ contains p ":" = false.
Proof.
  split.
  - revert h p. induction s as [|c r IH]; intros h p; [discriminate|].
    simpl. destruct (split_last_colon r) as [[h' p']|] eqn:E.
    + intros [= <- <-]. destruct (IH h' p' eq_refl) as [-> Hp].
      split; [reflexivity | exact Hp].
    + destruct (ascii_eqb c ":") eqn:Ec; [|discriminate].
      intros [= <- <-]. apply ascii_eqb_true in Ec. subst c.
      split; [reflexivity | now apply split_none].
  - intros [-> Hp]. induction h as [|c h IH].
    + rewrite append_nil, append_cons, append_nil. simpl.
      apply split_none in Hp. now rewrite Hp.
    + rewrite append_cons. simpl. now rewrite IH.
Qed.

Lemma digits_no_colon (p : string) :
  all_digits p = true -> contains p ":" = false.
Proof.
  induction p as [|c p IH]; [reflexivity|].
  unfold all_digits. simpl. intros H. apply andb_prop in H as [Hc Hp].
  rewrite contains_cons, (IH Hp), orb_false_r.
  destruct (ascii_eqb c ":") eqn:E; [|reflexivity].
  apply ascii_eqb_true in E. subst c. discriminate.
Qed.

Lemma control_free_cons (c : ascii) (r : string) :
  control_free (String c r) = true ->
  is_control c = false /\ control_free r = true.
Proof.
  unfold control_free. simpl. intros H. apply andb_prop in H as [Hc Hr].
  split; [now apply negb_true_iff | exact Hr].
Qed.

Lemma not_control_neq (c x : ascii) :
  is_control c = false -> is_control x = true -> ascii_eqb c x = false.
Proof.
  intros Hc Hx. destruct (ascii_eqb c x) eqn:E; [|reflexivity].
  apply ascii_eqb_true in E. subst. congruence.
Qed.

Lemma control_free_c_str (u : string) : control_free u = true -> c_str u = u.
Proof.
  induction u as [|c r IH]; [reflexivity|].
  intros H. apply control_free_cons in H as [Hc Hr]. simpl.
  rewrite (not_control_neq c NUL Hc eq_refl). now rewrite (IH Hr).
Qed.

Lemma control_free_drop (u : string) :
  control_free u = true -> drop_final_LF u = u.
Proof.
  induction u as [|c r IH]; [reflexivity|].
  intros H. apply control_free_cons in H as [Hc Hr]. simpl.
  rewrite (not_control_neq c LF Hc eq_refl).
  destruct r; [reflexivity|]. now rewrite (IH Hr).
Qed.

Lemma control_free_no_LF (h r : string) :
  control_free (h +:+ r) = true -> contains h LF = false.
Proof.
  induction h as [|c h IH]; [reflexivity|].
  rewrite append_cons. intros H. apply control_free_cons in H as [Hc Hr].
  rewrite contains_cons, (not_control_neq c LF Hc eq_refl). now apply IH.
Qed.

Lemma eqb_empty (p : string) :
  String.eqb p EmptyString = false <-> p <> EmptyString.
Proof.
  destruct p; simpl; split; intros H; try congruence; try reflexivity.
Qed.

(** On a target without control character the pattern accepts exactly
    the strings that end in a colon and one or more digits, and captures
    what stands before and after that colon. *)
Lemma match_host_port_form (u h p : string) :
  control_free u = true ->
  match_host_port (c_str u) = Some (h, p) <-> host_port_form u h p.
Proof.
  intros Hu. unfold match_host_port, host_port_form.
  rewrite (control_free_c_str u Hu), (control_free_drop u Hu).
  split.
  - destruct (split_last_colon u) as [[h' p']|] eqn:E; [|discriminate].
    destruct (negb (contains h' LF) && all_digits p'
              && negb (String.eqb p' EmptyString)) eqn:C; [|discriminate].
    intros [= <- <-]. apply split_last_colon_spec in E as [-> _].
    apply andb_prop in C as [C Hne]. apply andb_prop in C as [_ Hd].
    repeat split; [|exact Hd]. apply eqb_empty. now apply negb_true_iff.
  - intros (-> & Hne & Hd).
    assert (E : split_last_colon (h +:+ ":" +:+ p) = Some (h, p)).
    { apply split_last_colon_spec. split; [reflexivity|].
      now apply digits_no_colon. }
    rewrite E, (control_free_no_LF _ _ Hu), Hd.
    apply eqb_empty in Hne. now rewrite Hne.
Qed.

Lemma match_host_port_none (u : string) :
  control_free u = true ->
  match_host_port (c_str u) = None <-> ~ exists h p, host_port_form u h p.
Proof.
  intros Hu. split.
  - intros H (h & p & F). apply (match_host_port_form u h p Hu) in F.
    congruence.
  - intros H. destruct (match_host_port (c_str u)) as [[h p]|] eqn:E;
      [|reflexivity].
    exfalso. apply H. exists h, p. now apply (match_host_port_form u h p Hu).
Qed.

End RegexFacts.

(** ** Facts about the slots of a session *)

Module SessionFacts.
Import Chars Http Socket ProxyConnection EventLoop Notions Tactics.

(** *** terminate *)

Lemma terminate_unsubscribed (c : ProxyConnection) :
  unsubscribed (fst (terminate c)) = true.
Proof. reflexivity. Qed.

Lemma terminate_emitted (c : ProxyConnection) :
  snd (terminate c) = emit_terminated c.
Proof. reflexivity. Qed.

Lemma terminate_closed (c : ProxyConnection) :
  isOpen (_downStream (fst (terminate c))) = false
  /\ isOpen (_upStream (fst (terminate c))) = false
  /\ closeCalls (_downStream (fst (terminate c)))
     = S (closeCalls (_downStream c))
  /\ closeCalls (_upStream (fst (terminate c))) = S (closeCalls (_upStream c)).
Proof.
  repeat split; log_simpl; rewrite ?length_app; simpl; lia.
Qed.

Lemma terminate_kept (c : ProxyConnection) :
  lookups (fst (terminate c)) = lookups c
  /\ connectedSlots (fst (terminate c)) = connectedSlots c
  /\ connectCalls (_upStream (fst (terminate c))) = connectCalls (_upStream c)
  /\ written (_upStream (fst (terminate c))) = written (_upStream c)
  /\ written (_downStream (fst (terminate c))) = written (_downStream c).
Proof. repeat split; log_simpl; reflexivity. Qed.

(** *** The lambdas connected to [connected] *)

Lemma upStreamConnected_kept (r : Request) (c : ProxyConnection) :
  _upStream (upStreamConnected r c) = _upStream c
  /\ lookups (upStreamConnected r c) = lookups c
  /\ connectedSlots (upStreamConnected r c) = connectedSlots c
  /\ signalsBlocked (_downStream (upStreamConnected r c))
     = signalsBlocked (_downStream c).
Proof.
  unfold upStreamConnected.
  destruct (String.eqb (method r) kConnect); repeat split.
Qed.

Lemma connected_slots_kept (slots : list Request) (c : ProxyConnection) :
  let c' := foldl (fun c r => upStreamConnected r c) c slots in
  _upStream c' = _upStream c
  /\ lookups c' = lookups c
  /\ connectedSlots c' = connectedSlots c
  /\ signalsBlocked (_downStream c') = signalsBlocked (_downStream c).
Proof.
  revert c. induction slots as [|r slots IH]; intros c; simpl; [auto|].
  destruct (IH (upStreamConnected r c)) as (U & L & S & B).
  destruct (upStreamConnected_kept r c) as (U' & L' & S' & B').
  repeat split; congruence.
Qed.

Section WithParser.

Variable parse : Parser.

(** *** downStreamReadyRead: the four ways it can end *)

Lemma downStreamReadyRead_cases (c : ProxyConnection) :
  let c0 := downstream_read c in
  (is_connected (state (_upStream c)) = true
   /\ downStreamReadyRead parse c
      = (onUp flush (onUp (write (bytesAvailable (_downStream c))) c0), []))
  \/ (is_connected (state (_upStream c)) = false
      /\ ((exists k, downStreamReadyRead parse c = (lookupHost k c0, []))
          \/ downStreamReadyRead parse c = (c0, [])
          \/ exists w, downStreamReadyRead parse c
                       = terminate (qWarning w c0))).
Proof.
  unfold downStreamReadyRead, downstream_read. simpl.
  destruct (is_connected (state (_upStream c))); simpl; [left; auto|].
  right. split; [reflexivity|].
  destruct (parse (bytesAvailable (_downStream c))) as [res req].
  destruct (completed res); [|right; right; eauto].
  destruct (supported (method req)); [|right; left; reflexivity].
  destruct (Qt.match_host_port (Qt.c_str (uri req))) as [[h p]|];
    [left; eauto | right; right; eauto].
Qed.

Lemma run_cons (ev : Event) (rest : list Event) (c : ProxyConnection) :
  fst (run parse (ev :: rest) c)
  = fst (run parse rest (fst (dispatch parse ev c))).
Proof.
  simpl. destruct (dispatch parse ev c) as [c1 e1]. simpl.
  destruct (run parse rest c1); reflexivity.
Qed.

(** *** What an event can do to the call logs *)

Lemma lookupFinished_connects (k : PendingLookup) (a : QHostAddress)
    (rest : list QHostAddress) (c : ProxyConnection) :
  let r := lookupFinished k (a :: rest) c in
  snd r = []
  /\ _downStream (fst r) = _downStream c
  /\ calls (_upStream (fst r))
     = (calls (_upStream c)
        ++ [ConnectToHost a (Qt.to_quint16 (lookup_port k))])%list
  /\ signalsBlocked (_upStream (fst r)) = signalsBlocked (_upStream c)
  /\ lookups (fst r) = lookups c
  /\ connectedSlots (fst r)
     = (connectedSlots c ++ [lookup_request k])%list.
Proof.
  open_session c. unfold lookupFinished, connectToHost. simpl.
  repeat (match goal with
          | |- context [busy ?s] => destruct (busy s)
          | |- context [negb ?b] => destruct b
          end; simpl);
    repeat split.
Qed.

Lemma lookupFinished_up_blocked (k : PendingLookup)
    (addresses : list QHostAddress) (c : ProxyConnection) :
  signalsBlocked (_upStream c) = true ->
  signalsBlocked (_upStream (fst (lookupFinished k addresses c))) = true
  /\ written (_downStream (fst (lookupFinished k addresses c)))
     = written (_downStream c).
Proof.
  intros B. destruct addresses as [|a rest]; [split; log_simpl; reflexivity|].
  open_session c. simpl in *. subst. unfold lookupFinished, connectToHost.
  simpl.
  repeat (match goal with |- context [busy ?s] => destruct (busy s) end;
          simpl);
    split; reflexivity.
Qed.

(** With the upstream signals blocked, nothing is written downstream
    any more and the signals stay blocked. *)
Lemma dispatch_up_blocked (ev : Event) (c : ProxyConnection) :
  signalsBlocked (_upStream c) = true ->
  signalsBlocked (_upStream (fst (dispatch parse ev c))) = true
  /\ written (_downStream (fst (dispatch parse ev c)))
     = written (_downStream c).
Proof.
  intros B. unfold dispatch.
  destruct ev; simpl; rewrite ?B; simpl; auto.
  - destruct (signalsBlocked (_downStream c)); simpl; [auto|].
    destruct (downStreamReadyRead_cases (onDown (receive data) c))
      as [[_ E]|[_ [[k E]|[E|[w E]]]]]; rewrite E; simpl; auto.
    split; [reflexivity | log_simpl; reflexivity].
  - destruct (signalsBlocked (_downStream c)); simpl; [auto|].
    split; [reflexivity | log_simpl; reflexivity].
  - destruct (signalsBlocked (_downStream c)); simpl; auto.
  - destruct (is_connecting _); simpl; auto.
  - destruct (is_connecting _); simpl; auto.
  - destruct (lookups c !! n) as [k|]; simpl; [|auto].
    apply (lookupFinished_up_blocked k addresses
             (set_lookups (delete n (lookups c)) c)). exact B.
Qed.

Lemma run_up_blocked (evs : list Event) (c : ProxyConnection) :
  signalsBlocked (_upStream c) = true ->
  signalsBlocked (_upStream (fst (run parse evs c))) = true
  /\ written (_downStream (fst (run parse evs c))) = written (_downStream c).
Proof.
  revert c. induction evs as [|ev rest IH]; intros c B; [auto|].
  rewrite run_cons.
  destruct (dispatch_up_blocked ev c B) as [B1 W1].
  destruct (IH _ B1) as [B2 W2]. split; congruence.
Qed.

End WithParser.

End SessionFacts.

(** ** Facts about the events of a session *)

Module EventFacts.
Import Chars Http Socket ProxyConnection EventLoop Notions Tactics.
Import SessionFacts.

Section WithParser.

Variable parse : Parser.

(** The equation of a downstream read that reaches its slot. *)
Lemma dispatch_down_read (data : string) (c : ProxyConnection) :
  signalsBlocked (_downStream c) = false ->
  dispatch parse (DownReadyRead data) c
  = let bytes := bytesAvailable (_downStream c) +:+ data in
    let c0 := downstream_read c in
    if negb (is_connected (state (_upStream c))) then
      let (result, request) := parse bytes in
      if completed result then
        if supported (method request) then
          match Qt.match_host_port (Qt.c_str (uri request)) with
          | Some (host, port) =>
              (lookupHost (mkLookup host (Qt.toInt port) request) c0, [])
          | None => terminate (qWarning InvalidUri c0)
          end
        else (c0, [])
      else terminate (qWarning (ParseFailed bytes) c0)
    else (onUp flush (onUp (write bytes) c0), []).
Proof.
  intros B. unfold dispatch, delivered. rewrite B. reflexivity.
Qed.

(** A socket event of a session whose sockets are both unsubscribed
    reaches no slot. *)
Lemma unsubscribed_not_delivered (ev : Event) (c : ProxyConnection) :
  unsubscribed c = true -> is_socket_event ev = true ->
  delivered ev c = false.
Proof.
  unfold unsubscribed. intros U S. apply andb_prop in U as [D U].
  destruct ev; simpl; rewrite ?D, ?U; try reflexivity. discriminate.
Qed.

Lemma library_side_unsubscribed (ev : Event) (c : ProxyConnection) :
  unsubscribed (library_side ev c) = unsubscribed c.
Proof.
  destruct ev; simpl; try reflexivity;
    destruct (is_connecting _); reflexivity.
Qed.

Lemma lookupFinished_unsubscribed (k : PendingLookup)
    (addresses : list QHostAddress) (c : ProxyConnection) :
  unsubscribed c = true ->
  unsubscribed (fst (lookupFinished k addresses c)) = true.
Proof.
  intros U. destruct addresses as [|a rest]; [reflexivity|].
  unfold unsubscribed in *. apply andb_prop in U as [D U].
  open_session c. simpl in *. subst. unfold lookupFinished, connectToHost.
  simpl.
  repeat (match goal with |- context [busy ?s] => destruct (busy s) end;
          simpl); reflexivity.
Qed.

Lemma dispatch_unsubscribed (ev : Event) (c : ProxyConnection) :
  unsubscribed c = true ->
  unsubscribed (fst (dispatch parse ev c)) = true.
Proof.
  intros U. destruct (is_socket_event ev) eqn:S.
  - unfold dispatch. rewrite (unsubscribed_not_delivered ev c U S). simpl.
    now rewrite library_side_unsubscribed.
  - destruct ev; try discriminate. unfold dispatch. simpl.
    destruct (lookups c !! n) as [k|]; [|exact U].
    now apply lookupFinished_unsubscribed.
Qed.

Lemma run_unsubscribed (evs : list Event) (c : ProxyConnection) :
  unsubscribed c = true -> unsubscribed (fst (run parse evs c)) = true.
Proof.
  revert c. induction evs as [|ev rest IH]; intros c U; [exact U|].
  rewrite run_cons. apply IH. now apply dispatch_unsubscribed.
Qed.

(** Only the completion of a host lookup calls [connectToHost]. *)
Lemma socket_event_connectCalls (ev : Event) (c : ProxyConnection) :
  is_socket_event ev = true ->
  connectCalls (_upStream (fst (dispatch parse ev c)))
  = connectCalls (_upStream c).
Proof.
  intros S. unfold dispatch.
  destruct ev; try discriminate; simpl.
  - destruct (signalsBlocked (_downStream c)); simpl; [reflexivity|].
    destruct (downStreamReadyRead_cases parse (onDown (receive data) c))
      as [[_ E]|[_ [[k E]|[E|[w E]]]]]; rewrite E; simpl;
      log_simpl; reflexivity.
  - destruct (signalsBlocked (_downStream c)); simpl; [reflexivity|].
    log_simpl; reflexivity.
  - destruct (signalsBlocked (_downStream c)); reflexivity.
  - destruct (signalsBlocked (_upStream c)); simpl; [reflexivity|].
    log_simpl; reflexivity.
  - destruct (signalsBlocked (_upStream c)); simpl; [reflexivity|].
    log_simpl; reflexivity.
  - destruct (signalsBlocked (_upStream c)), (is_connecting _); reflexivity.
  - destruct (signalsBlocked (_upStream c)), (is_connecting _); simpl;
      try reflexivity.
    match goal with
    | |- context [foldl ?f ?c0 ?l] =>
        destruct (connected_slots_kept l c0) as (-> & _)
    end. reflexivity.
Qed.

(** What one event adds to the bytes written upstream. *)
Lemma dispatch_written_up (ev : Event) (c : ProxyConnection) :
  written (_upStream (fst (dispatch parse ev c)))
  = (written (_upStream c) ++ relayed_upstream parse [ev] c)%list.
Proof.
  unfold relayed_upstream. rewrite app_nil_r. unfold dispatch.
  destruct ev; simpl; rewrite ?app_nil_r.
  - destruct (signalsBlocked (_downStream c)); simpl;
      [now rewrite app_nil_r|].
    destruct (downStreamReadyRead_cases parse (onDown (receive data) c))
      as [[C E]|[C [[k E]|[E|[w E]]]]]; rewrite E; simpl in *; rewrite C;
      log_simpl; reflexivity.
  - destruct (signalsBlocked (_downStream c)); simpl; [reflexivity|].
    log_simpl; reflexivity.
  - destruct (signalsBlocked (_downStream c)); reflexivity.
  - destruct (signalsBlocked (_upStream c)); simpl; reflexivity.
  - destruct (signalsBlocked (_upStream c)); simpl; [reflexivity|].
    log_simpl; reflexivity.
  - destruct (signalsBlocked (_upStream c)), (is_connecting _); reflexivity.
  - destruct (signalsBlocked (_upStream c)), (is_connecting _); simpl;
      try reflexivity.
    match goal with
    | |- context [foldl ?f ?c0 ?l] =>
        destruct (connected_slots_kept l c0) as (-> & _)
    end. reflexivity.
  - destruct (lookups c !! n) as [k|]; simpl; [|reflexivity].
    destruct addresses as [|a rest]; [log_simpl; reflexivity|].
    destruct (lookupFinished_connects k a rest
                (set_lookups (delete n (lookups c)) c))
      as (_ & _ & E & _).
    unfold written. rewrite E, omap_app. simpl. now rewrite app_nil_r.
Qed.

Lemma run_written_up (evs : list Event) (c : ProxyConnection) :
  written (_upStream (fst (run parse evs c)))
  = (written (_upStream c) ++ relayed_upstream parse evs c)%list.
Proof.
  revert c. induction evs as [|ev rest IH]; intros c.
  - simpl. now rewrite app_nil_r.
  - rewrite run_cons, IH, dispatch_written_up.
    cbn [relayed_upstream]. now rewrite app_nil_r, app_assoc.
Qed.

End WithParser.

End EventFacts.

(** ** Facts about the registry *)

Module ServerFacts.
Import Http Socket ProxyConnection EventLoop ProxyServer Notions.

Lemma onConnectionTerminate_registry (id : Z) (s : ProxyServer) :
  _connections (onConnectionTerminate id s) = delete id (_connections s).
Proof.
  unfold onConnectionTerminate.
  destruct (_connections s !! id) as [p|] eqn:E; simpl; [reflexivity|].
  symmetry. now apply delete_id.
Qed.

Lemma onConnectionTerminate_notified (id : Z) (s : ProxyServer) :
  notifications (onConnectionTerminate id s) = notifications s ++ [id].
Proof.
  unfold onConnectionTerminate. destruct (_connections s !! id); reflexivity.
Qed.

(** An id that is not registered: only the log and the record of the
    call change. *)
Lemma onConnectionTerminate_unknown (id : Z) (s : ProxyServer) :
  _connections s !! id = None ->
  _connections (onConnectionTerminate id s) = _connections s
  /\ objects (onConnectionTerminate id s) = objects s
  /\ deferred (onConnectionTerminate id s) = deferred s.
Proof.
  intros E. unfold onConnectionTerminate. rewrite E. simpl. auto.
Qed.

Lemma onConnectionTerminate_known (id : Z) (p : nat) (s : ProxyServer) :
  _connections s !! id = Some p ->
  objects (onConnectionTerminate id s)
  = alter (set_objectSignalsBlocked true) p (objects s)
  /\ deferred (onConnectionTerminate id s) = deferred s ++ [p]
  /\ S (size (_connections (onConnectionTerminate id s)))
     = size (_connections s).
Proof.
  intros E. rewrite onConnectionTerminate_registry.
  unfold onConnectionTerminate. rewrite E. simpl. repeat split.
  rewrite <- (insert_id (_connections s) id p E) at 2.
  rewrite <- insert_delete_eq.
  rewrite map_size_insert_None; [reflexivity | apply lookup_delete_eq].
Qed.

(** [terminate] runs on a registered object whose own signals are not
    blocked: the registry drops the id and is notified once. *)
Lemma invoke_terminate_registered (p : nat) (c : ProxyConnection)
    (s : ProxyServer) :
  _connections s !! _id c = Some p ->
  objects s !! p = Some c ->
  objectSignalsBlocked c = false ->
  let t := invoke p terminate s in
  _connections t = delete (_id c) (_connections s)
  /\ notifications t = notifications s ++ [_id c]
  /\ objects t !! p = Some (set_objectSignalsBlocked true (fst (terminate c)))
  /\ deferred t = deferred s ++ [p].
Proof.
  intros R O B. unfold invoke. rewrite O.
  change (terminate c) with (fst (terminate c), emit_terminated c).
  unfold emit_terminated. rewrite B. cbn [foldl].
  rewrite onConnectionTerminate_registry, onConnectionTerminate_notified.
  repeat split; unfold onConnectionTerminate, set_object; cbn [_connections];
    rewrite R; cbn [qInfo_size objects deferred]; [|reflexivity].
  rewrite lookup_alter_eq, lookup_insert_eq. reflexivity.
Qed.

(** [terminate] runs on an object whose signals are blocked: nobody is
    notified and the registry is left alone. *)
Lemma invoke_terminate_blocked (p : nat) (c : ProxyConnection)
    (s : ProxyServer) :
  objects s !! p = Some c ->
  objectSignalsBlocked c = true ->
  let t := invoke p terminate s in
  _connections t = _connections s
  /\ notifications t = notifications s
  /\ deferred t = deferred s.
Proof.
  intros O B. unfold invoke. rewrite O.
  change (terminate c) with (fst (terminate c), emit_terminated c).
  unfold emit_terminated. rewrite B. cbn [foldl]. auto.
Qed.

Lemma destroy_deferred_gone (p : nat) (s : ProxyServer) :
  p ∈ deferred s -> objects (destroy_deferred s) !! p = None.
Proof.
  unfold destroy_deferred. simpl. generalize (objects s).
  induction (deferred s) as [|q l IH]; intros m H; [inversion H|].
  simpl. destruct (decide (q = p)) as [->|N].
  - apply lookup_delete_eq.
  - rewrite lookup_delete_ne by exact N. apply IH.
    apply elem_of_cons in H as [H|H]; [congruence | exact H].
Qed.

End ServerFacts.

(** ** Facts about the registry invariant *)

Module RegistryFacts.
Import Http Socket ProxyConnection EventLoop ProxyServer Notions Tactics.
Import Registry SessionFacts EventFacts ServerFacts.

Lemma terminate_identity (c : ProxyConnection) :
  _id (fst (terminate c)) = _id c
  /\ objectSignalsBlocked (fst (terminate c)) = objectSignalsBlocked c.
Proof. split; reflexivity. Qed.

Lemma connected_slots_identity (slots : list Request) (c : ProxyConnection) :
  _id (foldl (fun c r => upStreamConnected r c) c slots) = _id c
  /\ objectSignalsBlocked (foldl (fun c r => upStreamConnected r c) c slots)
     = objectSignalsBlocked c.
Proof.
  revert c. induction slots as [|r slots IH]; intros c; simpl; [auto|].
  destruct (IH (upStreamConnected r c)) as [I B]. rewrite I, B.
  unfold upStreamConnected.
  destruct (String.eqb (method r) kConnect); split; reflexivity.
Qed.

Section WithParser.

Variable parse : Parser.

(** A slot changes neither the id nor the flag of the object's own
    signals, and emits at most the object's id, and only when that flag is
    not set. *)
Lemma dispatch_identity (ev : Event) (c : ProxyConnection) :
  _id (fst (dispatch parse ev c)) = _id c
  /\ objectSignalsBlocked (fst (dispatch parse ev c)) = objectSignalsBlocked c
  /\ (snd (dispatch parse ev c) = []
      \/ (snd (dispatch parse ev c) = [_id c]
          /\ objectSignalsBlocked c = false)).
Proof.
  assert (T : forall c', _id c' = _id c ->
                objectSignalsBlocked c' = objectSignalsBlocked c ->
                _id (fst (terminate c')) = _id c
                /\ objectSignalsBlocked (fst (terminate c'))
                   = objectSignalsBlocked c
                /\ (snd (terminate c') = []
                    \/ (snd (terminate c') = [_id c]
                        /\ objectSignalsBlocked c = false))).
  { intros c' I B. repeat split; try assumption.
    change (snd (terminate c')) with (emit_terminated c').
    unfold emit_terminated. simpl. rewrite B, I.
    destruct (objectSignalsBlocked c); auto. }
  unfold dispatch. destruct (delivered ev c); [|destruct ev; simpl; auto;
    destruct (is_connecting _); simpl; auto].
  destruct ev; simpl; auto.
  - destruct (downStreamReadyRead_cases parse (onDown (receive data) c))
      as [[_ E]|[_ [[k E]|[E|[w E]]]]]; rewrite E; simpl; auto.
    apply T; reflexivity.
  - apply T; reflexivity.
  - apply T; reflexivity.
  - destruct (is_connecting _); simpl; auto.
  - match goal with
    | |- context [foldl ?f ?c0 ?l] =>
        destruct (connected_slots_identity l c0) as [-> ->]
    end.
    destruct (is_connecting _); simpl; auto.
  - destruct (lookups c !! n) as [k|]; simpl; auto.
    destruct addresses as [|a rest]; [apply T; reflexivity|].
    open_session c. unfold lookupFinished, connectToHost. simpl.
    repeat (match goal with
            | |- context [busy ?s] => destruct (busy s)
            | |- context [negb ?b] => destruct b
            end; simpl); auto.
Qed.

Lemma registry_sound_listening : registry_sound listening.
Proof.
  repeat split; intros *; simpl; rewrite ?lookup_empty; try discriminate.
  intros M. inversion M.
Qed.

Lemma registry_sound_incoming (handle : Z) (adopt : bool) (s : ProxyServer) :
  registry_sound s -> registry_sound (incomingConnection handle adopt s).
Proof.
  intros (H & J & K). unfold incomingConnection, qInfo_size.
  destruct adopt; [|exact (conj H (conj J K))].
  set (id := Qt.to_int handle).
  assert (Old : forall q, q ∈ option_list (_connections s !! id) ->
                          _connections s !! id = Some q).
  { intros q M. destruct (_connections s !! id) as [q'|]; simpl in M;
      [|inversion M].
    apply list_elem_of_singleton in M. now subst. }
  split; [|split]; simpl.
  - intros id' p. destruct (decide (id = id')) as [<-|N].
    + rewrite lookup_insert_eq. intros [= <-]. split; [|split; [|lia]].
      * exists (new adopted id). rewrite lookup_insert_eq. auto.
      * intros M. apply elem_of_app in M as [M|M].
        -- apply K in M. lia.
        -- apply Old, H in M. lia.
    + rewrite lookup_insert_ne by exact N. intros R.
      destruct (H id' p R) as ((c & O & I & B) & D & L).
      split; [|split; [|lia]].
      * exists c. rewrite lookup_insert_ne by lia. auto.
      * intros M. apply elem_of_app in M as [M|M]; [contradiction|].
        apply Old in M. apply N. exact (J _ _ _ M R).
  - intros id1 id2 p.
    destruct (decide (id = id1)) as [<-|N1], (decide (id = id2)) as [<-|N2];
      rewrite ?lookup_insert_eq, ?lookup_insert_ne by assumption; auto.
    + intros [= <-] R. apply H in R. lia.
    + intros R [= <-]. apply H in R. lia.
    + apply J.
  - intros p M. apply elem_of_app in M as [M|M].
    + apply K in M. lia.
    + apply Old, H in M. lia.
Qed.

Lemma registry_sound_onConnectionTerminate (id : Z) (s : ProxyServer) :
  registry_sound s -> registry_sound (onConnectionTerminate id s).
Proof.
  intros (H & J & K). unfold onConnectionTerminate, qInfo_size.
  destruct (_connections s !! id) as [q|] eqn:E;
    [|exact (conj H (conj J K))].
  split; [|split]; simpl.
  - intros id' p R. apply lookup_delete_Some in R as [N R].
    destruct (H id' p R) as ((c & O & I & B) & D & L).
    assert (p <> q) by (intros ->; apply N; exact (J _ _ _ E R)).
    split; [|split; [|exact L]].
    + exists c. rewrite lookup_alter_ne by congruence. auto.
    + intros M. apply elem_of_app in M as [M|M]; [contradiction|].
      apply list_elem_of_singleton in M. contradiction.
  - intros id1 id2 p R1 R2. apply lookup_delete_Some in R1 as [_ R1].
    apply lookup_delete_Some in R2 as [_ R2]. exact (J _ _ _ R1 R2).
  - intros p M. apply elem_of_app in M as [M|M]; [now apply K|].
    apply list_elem_of_singleton in M. subst. now apply H in E.
Qed.

Lemma registry_sound_set_object (p : nat) (c c' : ProxyConnection)
    (s : ProxyServer) :
  registry_sound s ->
  objects s !! p = Some c ->
  _id c' = _id c ->
  objectSignalsBlocked c' = objectSignalsBlocked c ->
  registry_sound (set_object p c' s).
Proof.
  intros (H & J & K) O I B. split; [|split]; simpl; [|exact J|exact K].
  intros id q R. destruct (H id q R) as ((d & Od & Id & Bd) & D & L).
  split; [|split; assumption].
  destruct (decide (p = q)) as [->|N].
  - exists c'. rewrite lookup_insert_eq. rewrite Od in O. injection O as ->.
    repeat split; congruence.
  - exists d. rewrite lookup_insert_ne by exact N. auto.
Qed.

Lemma lookup_foldr_delete (l : list nat) (m : gmap nat ProxyConnection)
    (p : nat) :
  p ∉ l -> foldr (fun q m => delete q m) m l !! p = m !! p.
Proof.
  induction l as [|q l IH]; intros N; [reflexivity|]. simpl.
  apply not_elem_of_cons in N as [N1 N2].
  rewrite lookup_delete_ne by congruence. now apply IH.
Qed.

Lemma registry_sound_destroy_deferred (s : ProxyServer) :
  registry_sound s -> registry_sound (destroy_deferred s).
Proof.
  intros (H & J & K). split; [|split]; simpl; [|exact J|].
  - intros id p R. destruct (H id p R) as ((c & O & I & B) & D & L).
    split; [|split; [|exact L]].
    + exists c. rewrite lookup_foldr_delete by exact D. auto.
    + intros M. inversion M.
  - intros p M. inversion M.
Qed.

Lemma registry_sound_step (ev : ServerEvent) (s : ProxyServer) :
  registry_sound s -> registry_sound (step parse ev s).
Proof.
  intros H. destruct ev as [handle adopt|p e|]; simpl.
  - now apply registry_sound_incoming.
  - unfold invoke. destruct (objects s !! p) as [c|] eqn:O; [|exact H].
    destruct (dispatch_identity e c) as (I & B & Em).
    destruct (dispatch parse e c) as [c' em]. simpl in I, B, Em.
    pose proof (registry_sound_set_object p c c' s H O I B) as H'.
    destruct Em as [->|[-> _]]; simpl; [exact H'|].
    now apply registry_sound_onConnectionTerminate.
  - now apply registry_sound_destroy_deferred.
Qed.

(** Every state the server reaches from [listening] has a sound
    registry. *)
Lemma registry_sound_steps (evs : list ServerEvent) :
  registry_sound (steps parse evs listening).
Proof.
  induction evs as [|ev evs IH] using rev_ind.
  - apply registry_sound_listening.
  - unfold steps in *. rewrite foldl_app. simpl.
    now apply registry_sound_step.
Qed.

End WithParser.

End RegistryFacts.

(** ** Further facts: settings *)

Module SettingsFacts.
Import Settings Startup.

Lemma read_present (key : string) (d v : QVariant) (s : Settings) :
  values s !! key = Some v -> read key d s = (v, s).
Proof. intros E. unfold read, contains, value. now rewrite E. Qed.

Lemma read_missing (key : string) (d : QVariant) (s : Settings) :
  values s !! key = None ->
  read key d s = (d, mkSettings (<[key := d]> (values s))
                                (<[key := d]> (values s))).
Proof. intros E. unfold read, contains. now rewrite E. Qed.

Lemma read_stored (key : string) (d : QVariant) (s : Settings) :
  values (snd (read key d s)) !! key = Some (fst (read key d s)).
Proof.
  destruct (values s !! key) as [v|] eqn:E.
  - now rewrite (read_present key d v s E).
  - rewrite (read_missing key d s E). simpl. apply lookup_insert_eq.
Qed.

Lemma read_others (key k : string) (d : QVariant) (s : Settings) :
  k <> key -> values (snd (read key d s)) !! k = values s !! k.
Proof.
  intros N. destruct (values s !! key) as [v|] eqn:E.
  - now rewrite (read_present key d v s E).
  - rewrite (read_missing key d s E). simpl. now apply lookup_insert_ne.
Qed.



End SettingsFacts.

(** ** Further facts: what the slots add to the call logs *)

Module LogFacts.
Import Chars Http Socket ProxyConnection EventLoop Notions Further Tactics.
Import QtFacts ReplyFacts SessionFacts EventFacts.

Lemma upStreamConnected_calls (r : Request) (c : ProxyConnection) :
  calls (_downStream (upStreamConnected r c))
  = calls (_downStream c) ++ reply_calls r.
Proof.
  unfold upStreamConnected, reply_calls. rewrite response_text.
  destruct (String.eqb (method r) kConnect); simpl.
  - now rewrite <- app_assoc.
  - now rewrite app_nil_r.
Qed.

Lemma connected_slots_calls (slots : list Request) (c : ProxyConnection) :
  calls (_downStream (foldl (fun c r => upStreamConnected r c) c slots))
  = calls (_downStream c) ++ flat_map reply_calls slots.
Proof.
  revert c. induction slots as [|r slots IH]; intros c; simpl.
  - now rewrite app_nil_r.
  - rewrite IH, upStreamConnected_calls. now rewrite <- app_assoc.
Qed.

Lemma connected_slots_rest (slots : list Request) (c : ProxyConnection) :
  let c' := foldl (fun c r => upStreamConnected r c) c slots in
  _upStream c' = _upStream c
  /\ signalsBlocked (_downStream c') = signalsBlocked (_downStream c)
  /\ state (_downStream c') = state (_downStream c)
  /\ bytesAvailable (_downStream c') = bytesAvailable (_downStream c)
  /\ lookups c' = lookups c
  /\ connectedSlots c' = connectedSlots c
  /\ warnings c' = warnings c.
Proof.
  revert c. induction slots as [|r slots IH]; intros c; simpl; [repeat split|].
  destruct (IH (upStreamConnected r c)) as (U & B & S & A & L & K & W).
  rewrite U, B, S, A, L, K, W. unfold upStreamConnected.
  destruct (String.eqb (method r) kConnect); repeat split.
Qed.

End LogFacts.

(** ** Further facts: the order of calls *)

Module OrderFacts.
Import Chars Http Socket ProxyConnection EventLoop Notions Further Tactics.
Import QtFacts ReplyFacts SessionFacts EventFacts LogFacts.

Lemma has_close_app (l l' : list Call) :
  has_close (l ++ l') = has_close l || has_close l'.
Proof. apply existsb_app. Qed.

Lemma has_write_app (l l' : list Call) :
  has_write (l ++ l') = has_write l || has_write l'.
Proof. apply existsb_app. Qed.

Lemma ordered_app (b : bool) (l l' : list Call) :
  ordered b (l ++ l') = ordered b l && ordered (b || has_close l) l'.
Proof.
  revert b. induction l as [|x l IH]; intros b; simpl.
  - now rewrite orb_false_r.
  - destruct x; simpl; rewrite ?IH, ?orb_false_r, ?orb_true_r; try reflexivity.
    now rewrite andb_assoc.
Qed.

Lemma no_write_ordered (b : bool) (l : list Call) :
  has_write l = false -> ordered b l = true.
Proof.
  revert b. induction l as [|x l IH]; intros b; [reflexivity|].
  destruct x; simpl; intros H; try discriminate; now apply IH.
Qed.

Lemma reply_calls_order (slots : list Request) :
  has_close (flat_map reply_calls slots) = false
  /\ ordered false (flat_map reply_calls slots) = true.
Proof.
  induction slots as [|r slots [C O]]; [split; reflexivity|]. simpl.
  assert (R : has_close (reply_calls r) = false
              /\ ordered false (reply_calls r) = true).
  { unfold reply_calls. destruct (String.eqb (method r) kConnect);
      split; reflexivity. }
  destruct R as [RC RO].
  rewrite has_close_app, ordered_app, RC, RO, C. simpl. rewrite O.
  split; reflexivity.
Qed.

Lemma terminate_calls (c : ProxyConnection) :
  calls (_downStream (fst (terminate c))) = calls (_downStream c) ++ teardown
  /\ calls (_upStream (fst (terminate c))) = calls (_upStream c) ++ teardown.
Proof. simpl. now rewrite <- !app_assoc. Qed.

Lemma adds_terminate (c c' : ProxyConnection) :
  calls (_downStream c') = calls (_downStream c) ->
  calls (_upStream c') = calls (_upStream c) ->
  adds c (fst (terminate c')).
Proof.
  intros D U. exists teardown, teardown.
  destruct (terminate_calls c') as [E1 E2]. rewrite E1, E2, D, U.
  repeat split. left. repeat split.
Qed.

Lemma adds_quiet (c c' : ProxyConnection) (ad au : list Call) :
  calls (_downStream c') = calls (_downStream c) ++ ad ->
  calls (_upStream c') = calls (_upStream c) ++ au ->
  has_close ad = false -> has_close au = false ->
  signalsBlocked (_downStream c') = signalsBlocked (_downStream c) ->
  signalsBlocked (_upStream c') = signalsBlocked (_upStream c) ->
  ordered false ad = true -> ordered false au = true ->
  (signalsBlocked (_upStream c) = true -> has_write ad = false) ->
  (signalsBlocked (_downStream c) = true -> has_write au = false) ->
  adds c c'.
Proof.
  intros. exists ad, au. split; [assumption|]. split; [assumption|].
  right. repeat split; assumption.
Qed.

Lemma adds_nothing (c c' : ProxyConnection) :
  calls (_downStream c') = calls (_downStream c) ->
  calls (_upStream c') = calls (_upStream c) ->
  signalsBlocked (_downStream c') = signalsBlocked (_downStream c) ->
  signalsBlocked (_upStream c') = signalsBlocked (_upStream c) ->
  adds c c'.
Proof.
  intros D U BD BU. apply (adds_quiet c c' [] []); rewrite ?app_nil_r; auto.
Qed.

Section WithParser.

Variable parse : Parser.

Lemma dispatch_adds (ev : Event) (c : ProxyConnection) :
  adds c (fst (dispatch parse ev c)).
Proof.
  unfold dispatch. destruct (delivered ev c) eqn:Dl; simpl.
  2:{ apply adds_nothing; destruct ev; simpl; try reflexivity;
        destruct (is_connecting _); reflexivity. }
  destruct ev; cbn [slot library_side delivered] in *.
  - apply negb_true_iff in Dl.
    destruct (downStreamReadyRead_cases parse (onDown (receive data) c))
      as [[_ E]|[_ [[k E]|[E|[w E]]]]]; rewrite E; simpl fst.
    + apply (adds_quiet c _ []
               [Write (bytesAvailable (_downStream c) +:+ data); Flush]);
        simpl; rewrite ?app_nil_r, <- ?app_assoc; auto;
      try (intros H; rewrite Dl in H; discriminate).
    + apply adds_nothing; reflexivity.
    + apply adds_nothing; reflexivity.
    + apply adds_terminate; reflexivity.
  - apply adds_terminate; reflexivity.
  - apply adds_nothing; reflexivity.
  - apply negb_true_iff in Dl. cbn [fst].
    apply (adds_quiet c _
             [Write (bytesAvailable (_upStream c) +:+ data); Flush] []);
      simpl; rewrite ?app_nil_r, <- ?app_assoc; auto;
      try (intros H; rewrite Dl in H; discriminate).
  - apply adds_terminate; reflexivity.
  - apply adds_nothing; destruct (is_connecting _); reflexivity.
  - apply andb_prop in Dl as [Dl Cn]. apply negb_true_iff in Dl. rewrite Cn.
    cbn [fst].
    change (connectedSlots (onUp (set_state ConnectedState) c))
      with (connectedSlots c).
    destruct (reply_calls_order (connectedSlots c)) as [C O].
    destruct (connected_slots_rest (connectedSlots c)
                (onUp (set_state ConnectedState) c))
      as (U & B & _).
    cbv zeta in U, B.
    apply (adds_quiet c _ (flat_map reply_calls (connectedSlots c)) []);
      rewrite ?connected_slots_calls, ?U, ?B, ?app_nil_r; auto;
      try (intros H; rewrite Dl in H; discriminate).
  - destruct (lookups c !! n) as [k|]; [|apply adds_nothing; reflexivity].
    destruct addresses as [|a rest]; [apply adds_terminate; reflexivity|].
    destruct (lookupFinished_connects k a rest
                (set_lookups (delete n (lookups c)) c))
      as (_ & D & U & B & _).
    cbv zeta in D, U, B.
    apply (adds_quiet c _ [] [ConnectToHost a (Qt.to_quint16 (lookup_port k))]);
      rewrite ?D, ?U, ?B, ?app_nil_r; auto.
Qed.

End WithParser.

End OrderFacts.

(** ** Further facts: tidy call logs and the relay *)

Module TidyFacts.
Import Chars Http Socket ProxyConnection EventLoop Notions Further Tactics.
Import QtFacts ReplyFacts SessionFacts EventFacts LogFacts OrderFacts.

Lemma no_close_ordered (l : list Call) :
  has_close l = false -> ordered false l = true.
Proof.
  induction l as [|x l IH]; [reflexivity|].
  destruct x; simpl; intros H; try discriminate; now apply IH.
Qed.

Lemma teardown_ordered (b : bool) : ordered b teardown = true.
Proof. reflexivity. Qed.

Lemma adds_tidy (c c' : ProxyConnection) : adds c c' -> tidy c -> tidy c'.
Proof.
  intros (ad & au & D & U & H) (OD & OU & K). unfold tidy, no_write_after_close.
  rewrite D, U, !ordered_app, !has_close_app.
  unfold no_write_after_close in OD, OU. rewrite OD, OU. simpl.
  destruct H as [(-> & -> & S)|(CD & CU & BD & BU & AD & AU & WD & WU)].
  - rewrite !teardown_ordered. auto.
  - rewrite CD, CU, !orb_false_r.
    assert (S : unsubscribed c' = unsubscribed c)
      by (unfold unsubscribed; now rewrite BD, BU).
    rewrite S. split; [|split; [|exact K]].
    + destruct (has_close (calls (_downStream c))) eqn:E; [|exact AD].
      apply no_write_ordered, WD. specialize (K eq_refl).
      unfold unsubscribed in K. now apply andb_prop in K as [_ K].
    + destruct (has_close (calls (_upStream c))) eqn:E; [|exact AU].
      apply no_write_ordered, WU.
      assert (K' : unsubscribed c = true) by (apply K; now rewrite orb_true_r).
      unfold unsubscribed in K'. now apply andb_prop in K' as [K' _].
Qed.

Lemma relaying_facts (c : ProxyConnection) :
  relaying c = true ->
  signalsBlocked (_downStream c) = false
  /\ signalsBlocked (_upStream c) = false
  /\ is_connected (state (_upStream c)) = true
  /\ bytesAvailable (_downStream c) = EmptyString
  /\ bytesAvailable (_upStream c) = EmptyString.
Proof.
  unfold relaying. intros H.
  apply andb_prop in H as [H A2]. apply andb_prop in H as [H A1].
  apply andb_prop in H as [H C]. apply andb_prop in H as [D U].
  apply negb_true_iff in D, U. apply String.eqb_eq in A1, A2. auto.
Qed.

Section WithParser.

Variable parse : Parser.

Lemma run_tidy (evs : list Event) (c : ProxyConnection) :
  tidy c -> tidy (fst (run parse evs c)).
Proof.
  revert c. induction evs as [|ev rest IH]; intros c T; [exact T|].
  rewrite run_cons. apply IH. exact (adds_tidy _ _ (dispatch_adds parse ev c) T).
Qed.

(** One read in an established relay. *)
Lemma relay_step (ev : Event) (c : ProxyConnection) :
  relaying c = true -> is_read ev = true ->
  snd (dispatch parse ev c) = []
  /\ relaying (fst (dispatch parse ev c)) = true
  /\ calls (_upStream (fst (dispatch parse ev c)))
     = calls (_upStream c)
       ++ flat_map (fun d => [Write d; Flush]) (from_downstream [ev])
  /\ calls (_downStream (fst (dispatch parse ev c)))
     = calls (_downStream c)
       ++ flat_map (fun d => [Write d; Flush]) (from_upstream [ev]).
Proof.
  intros R I. pose proof (relaying_facts c R) as (D & U & C & AD & AU).
  destruct ev; try discriminate.
  - rewrite (dispatch_down_read parse data c D). cbv zeta.
    rewrite C, AD, append_nil. simpl.
    unfold relaying. simpl. rewrite D, U, C, AU. simpl.
    repeat split; rewrite <- ?app_assoc, ?app_nil_r; reflexivity.
  - unfold dispatch, delivered. rewrite U. simpl.
    rewrite AU, append_nil. unfold relaying. simpl. rewrite D, U, C, AD. simpl.
    repeat split; rewrite <- ?app_assoc, ?app_nil_r; reflexivity.
Qed.

End WithParser.

End TidyFacts.

(** ** Further facts: live sessions and the registry *)

Module LiveFacts.
Import Chars Http Socket ProxyConnection EventLoop ProxyServer.
Import Notions Further Registry Tactics.
Import SessionFacts EventFacts ServerFacts RegistryFacts LogFacts OrderFacts.

Lemma keeps_live (c c' : ProxyConnection) (ad au : list Call) :
  calls (_downStream c') = calls (_downStream c) ++ ad ->
  calls (_upStream c') = calls (_upStream c) ++ au ->
  has_close ad = false -> has_close au = false ->
  signalsBlocked (_downStream c') = signalsBlocked (_downStream c) ->
  signalsBlocked (_upStream c') = signalsBlocked (_upStream c) ->
  live c' = live c.
Proof.
  intros D U CD CU BD BU. unfold live.
  now rewrite D, U, BD, BU, !has_close_app, CD, CU, !orb_false_r.
Qed.

Lemma terminate_emits_for (c c' : ProxyConnection) :
  _id c' = _id c -> objectSignalsBlocked c' = objectSignalsBlocked c ->
  snd (terminate c') = emit_terminated c.
Proof.
  intros I B. change (snd (terminate c')) with (emit_terminated (fst (terminate c'))).
  unfold emit_terminated. simpl. now rewrite I, B.
Qed.

Section WithParser.

Variable parse : Parser.

(** An event either runs [terminate], which emits the signal unless the
    object's signals are blocked, or emits nothing and leaves a live
    session live. *)
Lemma dispatch_terminates_or_keeps (ev : Event) (c : ProxyConnection) :
  (snd (dispatch parse ev c) = emit_terminated c
   /\ unsubscribed (fst (dispatch parse ev c)) = true)
  \/ (snd (dispatch parse ev c) = []
      /\ live (fst (dispatch parse ev c)) = live c).
Proof.
  assert (Same : forall c' : ProxyConnection,
             calls (_downStream c') = calls (_downStream c) ->
             calls (_upStream c') = calls (_upStream c) ->
             signalsBlocked (_downStream c') = signalsBlocked (_downStream c) ->
             signalsBlocked (_upStream c') = signalsBlocked (_upStream c) ->
             live c' = live c).
  { intros c' D U BD BU. apply (keeps_live c c' [] []);
      rewrite ?app_nil_r; auto. }
  unfold dispatch. destruct (delivered ev c) eqn:Dl.
  2:{ right. split; [reflexivity|]. cbn [fst].
      apply Same; destruct ev; simpl; try reflexivity;
        destruct (is_connecting _); reflexivity. }
  destruct ev; cbn [slot library_side delivered] in *.
  - destruct (downStreamReadyRead_cases parse (onDown (receive data) c))
      as [[_ E]|[_ [[k E]|[E|[w E]]]]]; rewrite E.
    + right. split; [reflexivity|]. cbn [fst].
      apply (keeps_live c _ []
               [Write (bytesAvailable (_downStream c) +:+ data); Flush]);
        simpl; rewrite ?app_nil_r, <- ?app_assoc; auto.
    + right. split; [reflexivity|]. apply Same; reflexivity.
    + right. split; [reflexivity|]. apply Same; reflexivity.
    + left. split; [now apply terminate_emits_for | reflexivity].
  - left. split; [now apply terminate_emits_for | reflexivity].
  - right. split; [reflexivity|]. apply Same; reflexivity.
  - right. split; [reflexivity|]. cbn [fst].
    apply (keeps_live c _
             [Write (bytesAvailable (_upStream c) +:+ data); Flush] []);
      simpl; rewrite ?app_nil_r, <- ?app_assoc; auto.
  - left. split; [now apply terminate_emits_for | reflexivity].
  - right. split; [reflexivity|].
    apply Same; destruct (is_connecting _); reflexivity.
  - apply andb_prop in Dl as [Dl Cn]. rewrite Cn. right.
    split; [reflexivity|]. cbn [fst].
    change (connectedSlots (onUp (set_state ConnectedState) c))
      with (connectedSlots c).
    destruct (reply_calls_order (connectedSlots c)) as [C O].
    destruct (connected_slots_rest (connectedSlots c)
                (onUp (set_state ConnectedState) c))
      as (U & B & _).
    cbv zeta in U, B.
    apply (keeps_live c _ (flat_map reply_calls (connectedSlots c)) []);
      rewrite ?connected_slots_calls, ?U, ?B, ?app_nil_r; auto.
  - destruct (lookups c !! n) as [k|];
      [|right; split; [reflexivity|apply Same; reflexivity]].
    destruct addresses as [|a rest];
      [left; split; [now apply terminate_emits_for | reflexivity]|].
    destruct (lookupFinished_connects k a rest
                (set_lookups (delete n (lookups c)) c))
      as (E & D & U & B & _).
    cbv zeta in E, D, U, B. right. split; [exact E|].
    apply (keeps_live c _ [] [ConnectToHost a (Qt.to_quint16 (lookup_port k))]);
      rewrite ?D, ?U, ?B, ?app_nil_r; auto.
Qed.

Lemma registered_live_step (ev : ServerEvent) (s : ProxyServer) :
  registry_sound s -> registered_live s -> registered_live (step parse ev s).
Proof.
  intros (H & J & K) L. destruct ev as [handle adopt|p e|]; simpl.
  - unfold incomingConnection, qInfo_size. destruct adopt; [|exact L].
    intros id' q. simpl. set (id := Qt.to_int handle).
    destruct (decide (id = id')) as [<-|N].
    + rewrite lookup_insert_eq. intros [= <-]. exists (new adopted id).
      rewrite lookup_insert_eq. auto.
    + rewrite lookup_insert_ne by exact N. intros R.
      destruct (L id' q R) as (c & O & Lc). exists c.
      apply H in R as (_ & _ & Lt). rewrite lookup_insert_ne by lia. auto.
  - unfold invoke. destruct (objects s !! p) as [c|] eqn:O; [|exact L].
    destruct (dispatch_identity parse e c) as (I & B & _).
    destruct (dispatch_terminates_or_keeps e c) as [[E U]|[E Lv]].
    + (* terminate ran *)
      assert (NotReg : objectSignalsBlocked c = true \/
                       _connections s !! _id c <> Some p ->
                       forall id' q, _connections s !! id' = Some q -> q <> p).
      { intros Hc id' q R ->. destruct (H id' p R) as ((c0 & O0 & I0 & B0) & _).
        rewrite O in O0. injection O0 as <-.
        destruct Hc as [Hc|Hc]; [congruence|]. subst id'. contradiction. }
      destruct (dispatch parse e c) as [c' em]. cbn [fst snd] in *. subst em.
      unfold emit_terminated. destruct (objectSignalsBlocked c) eqn:Bc.
      * cbn [foldl]. intros id' q R. simpl in R.
        destruct (L id' q R) as (c0 & O0 & L0). exists c0. simpl.
        rewrite lookup_insert_ne; [auto|].
        intros <-. exact (NotReg (or_introl eq_refl) id' p R eq_refl).
      * cbn [foldl]. unfold onConnectionTerminate, qInfo_size, set_object.
        cbn [_connections objects].
        destruct (_connections s !! _id c) as [q0|] eqn:R0.
        -- intros id' q R. cbn [_connections] in R.
           apply lookup_delete_Some in R as [N R].
           destruct (L id' q R) as (c0 & O0 & L0). exists c0.
           cbn [objects].
           assert (q <> q0) by (intros ->; apply N; exact (J _ _ _ R0 R)).
           assert (q <> p).
           { intros ->. destruct (H id' p R) as ((c1 & O1 & I1 & _) & _).
             rewrite O in O1. injection O1 as <-. congruence. }
           rewrite lookup_alter_ne by congruence.
           rewrite lookup_insert_ne by congruence. auto.
        -- intros id' q R. cbn [_connections] in R.
           destruct (L id' q R) as (c0 & O0 & L0). exists c0. cbn [objects].
           rewrite lookup_insert_ne; [auto|].
           intros <-. destruct (H id' p R) as ((c1 & O1 & I1 & _) & _).
           rewrite O in O1. injection O1 as <-. congruence.
    + destruct (dispatch parse e c) as [c' em]. cbn [fst snd] in *. subst em.
      cbn [foldl]. intros id' q R. simpl in R.
      destruct (L id' q R) as (c0 & O0 & L0). simpl.
      destruct (decide (p = q)) as [->|N].
      * exists c'. rewrite lookup_insert_eq. rewrite O in O0. injection O0 as <-.
        split; [reflexivity | congruence].
      * exists c0. rewrite lookup_insert_ne by exact N. auto.
  - intros id q R. simpl in R. destruct (L id q R) as (c & O & Lc).
    exists c. simpl. apply H in R as (_ & D & _).
    rewrite lookup_foldr_delete by exact D. auto.
Qed.

(** Every state the server reaches from [listening] has a sound registry
    whose sessions are all live. *)
Lemma reachable_sound_live (evs : list ServerEvent) :
  registry_sound (steps parse evs listening)
  /\ registered_live (steps parse evs listening).
Proof.
  induction evs as [|ev evs [S L]] using rev_ind.
  - split; [apply registry_sound_listening|]. intros id p R.
    simpl in R. rewrite lookup_empty in R. discriminate.
  - unfold steps in *. rewrite foldl_app. simpl. split.
    + now apply registry_sound_step.
    + now apply registered_live_step.
Qed.

End WithParser.

End LiveFacts.

(** ** Further facts: one object among the others *)

Module ObjectFacts.
Import Chars Http Socket ProxyConnection EventLoop ProxyServer.
Import Notions Further Registry Tactics.
Import SessionFacts EventFacts ServerFacts RegistryFacts LiveFacts.

Lemma to_int_period (h : Z) : Qt.to_int (h + 4294967296) = Qt.to_int h.
Proof.
  unfold Qt.to_int.
  replace (h + 4294967296 + 2147483648)
    with (h + 2147483648 + 1 * 4294967296) by lia.
  now rewrite Z_mod_plus_full.
Qed.

Lemma incomingConnection_accepts (handle : Z) (s : ProxyServer) :
  _connections (incomingConnection handle true s)
  = <[Qt.to_int handle := allocated s]> (_connections s)
  /\ objects (incomingConnection handle true s)
     = <[allocated s := new adopted (Qt.to_int handle)]> (objects s)
  /\ deferred (incomingConnection handle true s)
     = deferred s ++ option_list (_connections s !! Qt.to_int handle)
  /\ allocated (incomingConnection handle true s) = S (allocated s)
  /\ notifications (incomingConnection handle true s) = notifications s.
Proof. repeat split. Qed.

Section WithParser.

Variable parse : Parser.

(** A slot on an object whose own signals are blocked notifies nobody and
    leaves the registry alone; the object stays blocked. *)
Lemma blocked_object_step (p : nat) (e : Event) (c : ProxyConnection)
    (t : ProxyServer) :
  objects t !! p = Some c ->
  objectSignalsBlocked c = true ->
  let u := step parse (ToSession p e) t in
  notifications u = notifications t
  /\ _connections u = _connections t
  /\ exists c', objects u !! p = Some c' /\ objectSignalsBlocked c' = true.
Proof.
  intros O B. simpl. unfold invoke. rewrite O.
  destruct (dispatch_identity parse e c) as (_ & B' & [E|[_ N]]);
    [|congruence].
  destruct (dispatch parse e c) as [c' em]. cbn [fst snd] in *. subst em.
  cbn [foldl]. repeat split. exists c'. simpl. rewrite lookup_insert_eq.
  split; [reflexivity | congruence].
Qed.

Lemma blocked_object_steps (p : nat) (later : list Event) (c : ProxyConnection)
    (t : ProxyServer) :
  objects t !! p = Some c ->
  objectSignalsBlocked c = true ->
  notifications (steps parse (map (ToSession p) later) t) = notifications t
  /\ _connections (steps parse (map (ToSession p) later) t) = _connections t.
Proof.
  revert c t. induction later as [|e later IH]; intros c t O B; [auto|].
  destruct (blocked_object_step p e c t O B) as (N & R & c' & O' & B').
  cbn [map]. unfold steps in *. cbn [foldl].
  destruct (IH c' _ O' B') as [N2 R2]. split; congruence.
Qed.

End WithParser.

End ObjectFacts.

(** ** Further facts: decimal numerals *)

Module NumeralFacts.
Import Chars Qt Notions Tactics QtFacts RegexFacts.

Lemma digits_uint (d : uint) : all_digits (NilEmpty.string_of_uint d) = true.
Proof. induction d; simpl; auto. Qed.

Lemma decimal_value_uint (d : uint) (acc : Z) :
  decimal_value acc (NilEmpty.string_of_uint d)
  = acc * 10 ^ Z.of_N (Unsigned.usize d)
    + Z.of_N (Unsigned.of_lu (Decimal.rev d)).
Proof.
  revert acc. induction d as [|d IH|d IH|d IH|d IH|d IH|d IH|d IH|d IH|d IH|d IH];
    intros acc; [simpl; lia | numeral_step IH ..].
Qed.

(** The numeral of a number that is not negative: digits only, not
    empty, and read back to the number. *)
Lemma number_value (n : Z) :
  0 <= n ->
  all_digits (number n) = true
  /\ number n <> EmptyString
  /\ decimal_value 0 (number n) = n.
Proof.
  intros H. destruct n as [|p|p]; [repeat split; discriminate | | lia].
  unfold number, NilZero.string_of_int, NilZero.string_of_uint.
  cbn [Z.to_int]. pose proof (Unsigned.to_uint_nonnil p) as N.
  assert (E : match Pos.to_uint p with
              | Nil => String "0" EmptyString
              | _ => NilEmpty.string_of_uint (Pos.to_uint p)
              end = NilEmpty.string_of_uint (Pos.to_uint p))
    by (destruct (Pos.to_uint p); [contradiction | reflexivity ..]).
  rewrite E. split; [apply digits_uint|]. split.
  - destruct (Pos.to_uint p); [contradiction | discriminate ..].
  - rewrite decimal_value_uint, <- Unsigned.of_uint_alt, Unsigned.of_to.
    simpl. reflexivity.
Qed.

Lemma contains_append (a b : string) (c : ascii) :
  contains (a +:+ b) c = contains a c || contains b c.
Proof.
  induction a as [|x a IH]; [reflexivity|].
  rewrite append_cons, !contains_cons, IH. now rewrite orb_assoc.
Qed.

Lemma digit_is_not (c x : ascii) :
  is_digit c = true -> is_digit x = false -> ascii_eqb c x = false.
Proof.
  intros Hc Hx. destruct (ascii_eqb c x) eqn:E; [|reflexivity].
  apply ascii_eqb_true in E. subst. congruence.
Qed.

Lemma digits_without (p : string) (x : ascii) :
  all_digits p = true -> is_digit x = false -> contains p x = false.
Proof.
  intros D X. induction p as [|c p IH]; [reflexivity|].
  unfold all_digits in D. simpl in D. apply andb_prop in D as [Dc Dp].
  rewrite contains_cons, (digit_is_not c x Dc X). now apply IH.
Qed.

Lemma c_str_without_NUL (s : string) : contains s NUL = false -> c_str s = s.
Proof.
  induction s as [|c s IH]; [reflexivity|].
  rewrite contains_cons. intros H. apply orb_false_elim in H as [Hc Hs].
  simpl. rewrite Hc. now rewrite (IH Hs).
Qed.

Lemma drop_final_LF_digits (a p : string) :
  all_digits p = true -> p <> EmptyString ->
  drop_final_LF (a +:+ p) = a +:+ p.
Proof.
  intros D N.
  assert (P : forall q, all_digits q = true -> q <> EmptyString ->
                        drop_final_LF q = q).
  { induction q as [|c q IH]; [congruence|]. intros Dq _.
    unfold all_digits in Dq. simpl in Dq. apply andb_prop in Dq as [Dc Dq].
    simpl. destruct q as [|c' q].
    - now rewrite (digit_is_not c LF Dc eq_refl).
    - rewrite IH; [reflexivity | exact Dq | discriminate]. }
  induction a as [|c a IH]; [now apply P|].
  rewrite append_cons. simpl. rewrite IH.
  destruct (a +:+ p) eqn:E; [|reflexivity].
  destruct a; [rewrite append_nil in E; congruence | discriminate].
Qed.

(** The pattern accepts every text followed by a colon and a numeral, and
    gives back the text and the numeral. *)
Lemma match_host_port_complete (h p : string) :
  contains h LF = false -> all_digits p = true -> p <> EmptyString ->
  match_host_port (h +:+ ":" +:+ p) = Some (h, p).
Proof.
  intros H D N. unfold match_host_port.
  rewrite <- append_assoc, drop_final_LF_digits by assumption.
  rewrite append_assoc.
  assert (E : split_last_colon (h +:+ ":" +:+ p) = Some (h, p)).
  { apply split_last_colon_spec. split; [reflexivity|].
    now apply digits_no_colon. }
  rewrite E, H, D. apply eqb_empty in N. now rewrite N.
Qed.

End NumeralFacts.

(** ** Further facts: the reply on the wire and the registered replies *)

Module WireFacts.
Import Chars Http Qt Socket ProxyConnection EventLoop Notions Further Wire.
Import Tactics QtFacts ReplyFacts SessionFacts EventFacts LogFacts.
Import NumeralFacts.







Section WithParser.

Variable parse : Parser.



End WithParser.

End WireFacts.

(** ** The claims *)

Import Chars Http Socket ProxyConnection EventLoop ProxyServer.
Import Notions Scenario.
Import Registry Tactics QtFacts ReplyFacts RegexFacts SessionFacts EventFacts.
Import ServerFacts RegistryFacts.
Import Further Wire Cases LogFacts WireFacts.

Section Claims.

Variable parse : Parser.

(** C1.  A failed connect attempt should drive the session to
    Terminated: both sockets closed and one [terminated] signal.  The
    code does not do that.  The failure reaches the session as the
    upstream socket's [errorOccurred], whose slot only logs: whatever the
    session, no signal is emitted, the downstream socket and the call log
    of the upstream socket are as before.  In scenario D (a CONNECT to
    host:9999, one address, connection refused) the session stays in the
    registry with its downstream socket connected, nothing pending and
    nobody notified. *)
Theorem connect_failure_leaves_session_open :
  (forall (c : ProxyConnection) (e : SocketError),
      let r := dispatch parse (UpErrorOccurred e) c in
      snd r = []
      /\ _downStream (fst r) = _downStream c
      /\ calls (_upStream (fst r)) = calls (_upStream c)
      /\ lookups (fst r) = lookups c
      /\ connectedSlots (fst r) = connectedSlots c)
  /\ (let s := steps Tokenizer.parse
                 [ToSession 0 (DownReadyRead connect_request);
                  ToSession 0 (LookupResult 0 [address]);
                  ToSession 0 (UpErrorOccurred ConnectionRefusedError)]
                 one_session in
      _connections s !! 7 = Some 0%nat
      /\ notifications s = []
      /\ deferred s = []
      /\ exists c,
          objects s !! 0%nat = Some c
          /\ calls (_downStream c) = []
          /\ state (_downStream c) = ConnectedState
          /\ calls (_upStream c) = [ConnectToHost address 9999]
          /\ state (_upStream c) = UnconnectedState
          /\ lookups c = []
          /\ warnings c = [UpStreamError]).
Proof.
  split.
  - intros c e. unfold dispatch, delivered, library_side, slot.
    open_session c. simpl.
    repeat match goal with
           | |- context [negb ?b] => destruct b; simpl
           | |- context [is_connecting ?s] => destruct (is_connecting s); simpl
           end; auto.
  - vm_compute. repeat split. eexists. repeat split.
Qed.

(** C2.  A complete request with a method outside CONNECT, GET, PUT,
    POST, HEAD, DELETE should terminate the session.  The code does not
    do that: the branch on the method has no alternative, so the read
    bytes are dropped, no signal is emitted and the session is left as it
    was, still waiting for a request. *)
Theorem unsupported_method_is_ignored :
  forall (c : ProxyConnection) (data : string) (request : Request),
    signalsBlocked (_downStream c) = false ->
    is_connected (state (_upStream c)) = false ->
    parse (bytesAvailable (_downStream c) +:+ data)
    = (ParsingCompleted, request) ->
    supported (method request) = false ->
    dispatch parse (DownReadyRead data) c = (downstream_read c, []).
Proof.
  intros c data request B C P S.
  rewrite (dispatch_down_read parse data c B). cbv zeta.
  rewrite C, P. simpl. now rewrite S.
Qed.


(** C4, as amended.  A target without control character is accepted
    exactly when it ends in a colon followed by one or more decimal
    digits; the text before that colon is not examined.  An accepted
    target starts one host lookup for the text before the colon, with the
    digits as port.  Any other target, such as [/path] or
    [http://host:port/path], makes the session terminate: both sockets
    are unsubscribed and closed, the signal [terminated] is emitted with
    the id of the session (unless the signals of the session object are
    blocked), and no lookup and no connect attempt is added.  In scenario C
    the registry is notified with the id 7 and loses the session. *)
Theorem target_accepted_iff_colon_digits :
  forall (c : ProxyConnection) (data : string) (request : Request),
    signalsBlocked (_downStream c) = false ->
    is_connected (state (_upStream c)) = false ->
    parse (bytesAvailable (_downStream c) +:+ data)
    = (ParsingCompleted, request) ->
    supported (method request) = true ->
    control_free (uri request) = true ->
    let r := dispatch parse (DownReadyRead data) c in
    (forall h p : string,
        host_port_form (uri request) h p ->
        r = (lookupHost (mkLookup h (Qt.toInt p) request) (downstream_read c),
             []))
    /\ ((~ exists h p : string, host_port_form (uri request) h p) ->
        r = terminate (qWarning InvalidUri (downstream_read c))
        /\ (objectSignalsBlocked c = false -> snd r = [_id c])
        /\ (objectSignalsBlocked c = true -> snd r = [])
        /\ unsubscribed (fst r) = true
        /\ isOpen (_downStream (fst r)) = false
        /\ isOpen (_upStream (fst r)) = false
        /\ lookups (fst r) = lookups c
        /\ connectCalls (_upStream (fst r)) = connectCalls (_upStream c))
    /\ Qt.match_host_port (Qt.c_str "/path") = None
    /\ Qt.match_host_port (Qt.c_str "http://host:port/path") = None
    /\ dispatch Tokenizer.parse (DownReadyRead get_path_request) accepted
       = terminate (qWarning InvalidUri accepted)
    /\ snd (dispatch Tokenizer.parse (DownReadyRead get_path_request) accepted)
       = [7]
    /\ _connections
         (step Tokenizer.parse (ToSession 0 (DownReadyRead get_path_request))
               one_session) !! 7 = None
    /\ notifications
         (step Tokenizer.parse (ToSession 0 (DownReadyRead get_path_request))
               one_session) = [7].
Proof.
  intros c data request B C P S F r.
  assert (E : r = match Qt.match_host_port (Qt.c_str (uri request)) with
                  | Some (h, p) =>
                      (lookupHost (mkLookup h (Qt.toInt p) request)
                                  (downstream_read c), [])
                  | None => terminate (qWarning InvalidUri (downstream_read c))
                  end).
  { unfold r. rewrite (dispatch_down_read parse data c B). cbv zeta.
    rewrite C, P. simpl. now rewrite S. }
  split; [|split; [|repeat split; vm_compute; reflexivity]].
  - intros h p H. apply (match_host_port_form _ _ _ F) in H.
    now rewrite E, H.
  - intros H. apply (match_host_port_none _ F) in H. rewrite H in E.
    rewrite E. split; [reflexivity|].
    split; [intros O; simpl; unfold emit_terminated; simpl; now rewrite O|].
    split; [intros O; simpl; unfold emit_terminated; simpl; now rewrite O|].
    destruct (terminate_kept (qWarning InvalidUri (downstream_read c)))
      as (L & _ & K & _).
    destruct (terminate_closed (qWarning InvalidUri (downstream_read c)))
      as (O1 & O2 & _).
    repeat split; assumption.
Qed.

(** C5.  A host lookup that completes without address terminates the
    session (sockets unsubscribed and closed, the signal [terminated]
    emitted with the id of the session unless the signals of the session
    object are blocked) and writes nothing downstream, and nothing is
    written downstream in any later run of events either.  A lookup that completes with one or more
    addresses makes exactly one [connectToHost] call, to the first
    address and the port of the target.  No socket event (an error of the
    connect attempt included) makes a [connectToHost] call: there is no
    second attempt.  In scenario B (a CONNECT to bad.invalid:443, no
    address) all the session does on its downstream socket is to
    unsubscribe, disconnect and close, and the registry is notified with
    the id 7 and loses the session. *)
Theorem lookup_completion_outcomes :
  forall (k : PendingLookup) (c : ProxyConnection),
    (let r := lookupFinished k [] c in
     unsubscribed (fst r) = true
     /\ isOpen (_downStream (fst r)) = false
     /\ isOpen (_upStream (fst r)) = false
     /\ (objectSignalsBlocked c = false -> snd r = [_id c])
     /\ (objectSignalsBlocked c = true -> snd r = [])
     /\ forall evs : list Event,
         written (_downStream (fst (run parse evs (fst r))))
         = written (_downStream c))
    /\ (forall (a : QHostAddress) (rest : list QHostAddress),
           let r := lookupFinished k (a :: rest) c in
           snd r = []
           /\ connectCalls (_upStream (fst r))
              = connectCalls (_upStream c)
                ++ [(a, Qt.to_quint16 (lookup_port k))])
    /\ (forall (ev : Event) (c' : ProxyConnection),
           is_socket_event ev = true ->
           connectCalls (_upStream (fst (dispatch parse ev c')))
           = connectCalls (_upStream c'))
    /\ calls
         (_downStream
            (fst (run Tokenizer.parse
                    [DownReadyRead unresolvable_connect_request;
                     LookupResult 0 []] accepted)))
       = [BlockSignals true; DisconnectFromHost; Close]
    /\ snd (run Tokenizer.parse
              [DownReadyRead unresolvable_connect_request; LookupResult 0 []]
              accepted) = [7]
    /\ _connections
         (steps Tokenizer.parse
            [ToSession 0 (DownReadyRead unresolvable_connect_request);
             ToSession 0 (LookupResult 0 [])] one_session) !! 7 = None
    /\ notifications
         (steps Tokenizer.parse
            [ToSession 0 (DownReadyRead unresolvable_connect_request);
             ToSession 0 (LookupResult 0 [])] one_session) = [7].
Proof.
  intros k c.
  split; [|split; [|split; [|repeat split; vm_compute; reflexivity]]].
  - cbv zeta.
    split; [reflexivity|]. split; [reflexivity|]. split; [reflexivity|].
    split; [intros O; simpl; unfold emit_terminated; simpl; now rewrite O|].
    split; [intros O; simpl; unfold emit_terminated; simpl; now rewrite O|].
    intros evs.
    destruct (run_up_blocked parse evs (fst (lookupFinished k [] c)) eq_refl)
      as [_ W].
    rewrite W. log_simpl. reflexivity.
  - intros a rest.
    destruct (lookupFinished_connects k a rest c) as (E & _ & U & _).
    split; [exact E|]. unfold connectCalls. rewrite U, omap_app. reflexivity.
  - intros ev c' S. now apply socket_event_connectCalls.
Qed.

(** C6.  Handling the termination signal for an id removes that id from
    the registry; handling it a second time changes neither the registry
    nor the objects nor the deferred deletions; for an id that is not
    registered it changes none of them either.  In every state the server
    reaches, when a registered session runs [terminate] twice, the
    registry is notified once and loses exactly that one entry: the second
    signal is not emitted, because handling the first one left the
    session's own signals blocked. *)
Theorem termination_signal_idempotent :
  (forall (s : ProxyServer) (id : Z),
      let s1 := onConnectionTerminate id s in
      let s2 := onConnectionTerminate id s1 in
      _connections s1 = delete id (_connections s)
      /\ (_connections s2 = _connections s1
          /\ objects s2 = objects s1
          /\ deferred s2 = deferred s1)
      /\ (_connections s !! id = None ->
          _connections s1 = _connections s
          /\ objects s1 = objects s
          /\ deferred s1 = deferred s))
  /\ (forall (evs : list ServerEvent) (id : Z) (p : nat),
         let s := steps parse evs listening in
         _connections s !! id = Some p ->
         let t1 := invoke p terminate s in
         let t2 := invoke p terminate t1 in
         notifications t1 = notifications s ++ [id]
         /\ notifications t2 = notifications t1
         /\ _connections t1 = delete id (_connections s)
         /\ _connections t2 = _connections t1
         /\ S (size (_connections t1)) = size (_connections s)).
Proof.
  split.
  - intros s id s1 s2. split; [apply onConnectionTerminate_registry|].
    split.
    + apply onConnectionTerminate_unknown. unfold s1.
      rewrite onConnectionTerminate_registry. apply lookup_delete_eq.
    + apply onConnectionTerminate_unknown.
  - intros evs id p s R t1 t2.
    destruct (registry_sound_steps parse evs) as (H & _).
    destruct (H id p R) as ((c & O & I & B) & _). subst id.
    destruct (invoke_terminate_registered p c s R O B) as (R1 & N1 & O1 & _).
    fold t1 in R1, N1, O1.
    destruct (invoke_terminate_blocked p _ t1 O1 eq_refl) as (R2 & N2 & _).
    fold t2 in R2, N2.
    repeat split; try assumption.
    rewrite R1.
    rewrite <- (insert_id (_connections s) (_id c) p R) at 2.
    rewrite <- insert_delete_eq.
    rewrite map_size_insert_None; [reflexivity | apply lookup_delete_eq].
Qed.

(** C7, as amended.  While the upstream socket is in the connected
    state, downstream data is not classified: it is written to the
    upstream socket and flushed, and no lookup and no [connectToHost]
    call is added.  Until then every downstream read is classified, and
    every read that holds a supported request with a matching target
    starts one more host lookup. *)
Theorem classification_guarded_by_connected_state :
  forall (c : ProxyConnection) (data : string),
    signalsBlocked (_downStream c) = false ->
    let r := dispatch parse (DownReadyRead data) c in
    let bytes := bytesAvailable (_downStream c) +:+ data in
    (is_connected (state (_upStream c)) = true ->
     r = (onUp flush (onUp (write bytes) (downstream_read c)), [])
     /\ lookups (fst r) = lookups c
     /\ connectCalls (_upStream (fst r)) = connectCalls (_upStream c))
    /\ (is_connected (state (_upStream c)) = false ->
        forall (request : Request) (h p : string),
          parse bytes = (ParsingCompleted, request) ->
          supported (method request) = true ->
          Qt.match_host_port (Qt.c_str (uri request)) = Some (h, p) ->
          lookups (fst r)
          = lookups c ++ [mkLookup h (Qt.toInt p) request]).
Proof.
  intros c data B r bytes. unfold r.
  rewrite (dispatch_down_read parse data c B). cbv zeta. split.
  - intros C. rewrite C. simpl. repeat split. log_simpl. reflexivity.
  - intros C request h p P S M. fold bytes. rewrite C, P. simpl.
    now rewrite S, M.
Qed.

(** C8, as amended.  [terminate] leaves both sockets unsubscribed, and
    they stay so whatever happens later.  No socket event (readyRead,
    disconnected, errorOccurred, connected, on either socket) of such a
    session reaches a slot: the event changes what Qt keeps about the
    socket and nothing else, and no signal is emitted.  An event for a
    session object that has been destroyed is dropped, and a session
    that the registry removed is destroyed by the next deferred
    deletion. *)
Theorem terminated_session_ignores_socket_events :
  forall c : ProxyConnection,
    unsubscribed (fst (terminate c)) = true
    /\ (forall evs : list Event,
           unsubscribed (fst (run parse evs (fst (terminate c)))) = true)
    /\ (forall (c' : ProxyConnection) (ev : Event),
           unsubscribed c' = true ->
           is_socket_event ev = true ->
           dispatch parse ev c' = (library_side ev c', []))
    /\ (forall (s : ProxyServer) (p : nat) (ev : Event),
           objects s !! p = None -> step parse (ToSession p ev) s = s)
    /\ (forall (s : ProxyServer) (id : Z) (p : nat),
           _connections s !! id = Some p ->
           objects (destroy_deferred (onConnectionTerminate id s)) !! p
           = None).
Proof.
  intros c. split; [reflexivity|]. split; [|split; [|split]].
  - intros evs. now apply run_unsubscribed.
  - intros c' ev U S. unfold dispatch.
    now rewrite (unsubscribed_not_delivered ev c' U S).
  - intros s p ev O. simpl. unfold invoke. now rewrite O.
  - intros s id p R. apply destroy_deferred_gone.
    destruct (onConnectionTerminate_known id p s R) as (_ & D & _).
    rewrite D. apply elem_of_app. right. constructor.
Qed.

(** C9.  In every run of events the bytes written to the upstream
    socket are, in order, those of the downstream reads that happened
    while the upstream socket was in the connected state, and nothing
    else.  So for a request with a supported method the bytes of the
    request itself, read before the connection, are never written
    upstream: after the connection is established the upstream socket has
    been written only what was read afterwards. *)
Theorem upstream_receives_only_later_reads :
  (forall (evs : list Event) (c : ProxyConnection),
      written (_upStream (fst (run parse evs c)))
      = written (_upStream c) ++ relayed_upstream parse evs c)
  /\ (forall (data : string) (request : Request) (h p : string)
             (a : QHostAddress) (rest : list QHostAddress) (id : Z)
             (later : string),
         parse data = (ParsingCompleted, request) ->
         supported (method request) = true ->
         Qt.match_host_port (Qt.c_str (uri request)) = Some (h, p) ->
         written
           (_upStream
              (fst (run parse
                      [DownReadyRead data; LookupResult 0 (a :: rest);
                       UpConnected; DownReadyRead later]
                      (new adopted id))))
         = [later]).
Proof.
  split; [apply run_written_up|].
  intros data request h p a rest id later P S M.
  unfold run, dispatch. simpl. unfold downStreamReadyRead. simpl.
  rewrite append_nil, P. simpl. rewrite S, M. simpl.
  unfold upStreamConnected.
  destruct (String.eqb (method request) kConnect); reflexivity.
Qed.

(** C10.  The slot of the upstream [readyRead] has no condition: in
    whatever state the session and its sockets are, it takes all the
    bytes waiting on the upstream socket, writes them to the downstream
    socket and flushes.  Every upstream read of a session whose upstream
    signals are not blocked does so.  For a request other than CONNECT
    the first thing written downstream is therefore what the upstream
    peer sent, with no reply before it. *)
Theorem upstream_read_relayed_unconditionally :
  (forall c : ProxyConnection,
      upStreamReadyRead c
      = onDown flush
          (onDown (write (bytesAvailable (_upStream c)))
                  (onUp (fun s => snd (readAll s)) c)))
  /\ (forall (c : ProxyConnection) (data : string),
         signalsBlocked (_upStream c) = false ->
         let r := dispatch parse (UpReadyRead data) c in
         snd r = []
         /\ calls (_downStream (fst r))
            = calls (_downStream c)
              ++ [Write (bytesAvailable (_upStream c) +:+ data); Flush]
         /\ bytesAvailable (_upStream (fst r)) = EmptyString)
  /\ (forall (data : string) (request : Request) (h p : string)
             (a : QHostAddress) (rest : list QHostAddress) (id : Z)
             (bytes : string),
         parse data = (ParsingCompleted, request) ->
         supported (method request) = true ->
         String.eqb (method request) kConnect = false ->
         Qt.match_host_port (Qt.c_str (uri request)) = Some (h, p) ->
         calls
           (_downStream
              (fst (run parse
                      [DownReadyRead data; LookupResult 0 (a :: rest);
                       UpConnected; UpReadyRead bytes]
                      (new adopted id))))
         = [Write bytes; Flush]).
Proof.
  split; [reflexivity|]. split.
  - intros c data B. unfold dispatch, delivered. rewrite B. simpl.
    repeat split. now rewrite <- app_assoc.
  - intros data request h p a rest id bytes P S N M.
    unfold run, dispatch. simpl. unfold downStreamReadyRead. simpl.
    rewrite append_nil, P. simpl. rewrite S, M. simpl.
    unfold upStreamConnected. rewrite N. reflexivity.
Qed.

End Claims.

(** ** Instances of the statements that carry hypotheses *)

Lemma unsupported_method_is_ignored_witness :
  dispatch Tokenizer.parse (DownReadyRead patch_request) accepted
  = (downstream_read accepted, []).
Proof.
  refine (unsupported_method_is_ignored Tokenizer.parse accepted patch_request
            patch_head _ _ _ _);
    vm_compute; reflexivity.
Defined.


Lemma target_accepted_iff_colon_digits_witness :
  dispatch Tokenizer.parse (DownReadyRead get_request) accepted
  = (lookupHost (mkLookup "example.com" (Qt.toInt "80") get_head)
                (downstream_read accepted), [])
  /\ snd (dispatch Tokenizer.parse (DownReadyRead get_path_request) accepted)
     = [_id accepted].
Proof.
  split.
  - refine (proj1 (target_accepted_iff_colon_digits Tokenizer.parse accepted
                     get_request get_head _ _ _ _ _)
                  "example.com" "80" _);
      try (vm_compute; reflexivity).
    vm_compute. repeat split. discriminate.
  - refine (proj1 (proj2 (proj1 (proj2
              (target_accepted_iff_colon_digits Tokenizer.parse accepted
                 get_path_request
                 (snd (Tokenizer.parse get_path_request)) _ _ _ _ _)) _)) _);
      try (vm_compute; reflexivity).
    intros (h & p & H).
    assert (F : control_free (uri (snd (Tokenizer.parse get_path_request)))
                = true) by (vm_compute; reflexivity).
    apply (match_host_port_form _ _ _ F) in H.
    vm_compute in H. discriminate H.
Defined.

Lemma lookup_completion_outcomes_witness :
  snd (lookupFinished (mkLookup "bad.invalid" 443 connect_head) [] resolving)
  = [_id resolving]
  /\ connectCalls
       (_upStream
          (fst (dispatch Tokenizer.parse
                         (UpErrorOccurred ConnectionRefusedError) connecting)))
     = connectCalls (_upStream connecting).
Proof.
  pose proof (lookup_completion_outcomes Tokenizer.parse
                (mkLookup "bad.invalid" 443 connect_head) resolving)
    as ((_ & _ & _ & E & _) & _ & S & _).
  split.
  - apply E. vm_compute; reflexivity.
  - apply S. vm_compute; reflexivity.
Defined.

Lemma termination_signal_idempotent_witness :
  notifications
    (invoke 0 terminate
       (invoke 0 terminate (steps Tokenizer.parse [Incoming 7 true] listening)))
  = notifications
      (invoke 0 terminate (steps Tokenizer.parse [Incoming 7 true] listening))
  /\ _connections
       (invoke 0 terminate
          (invoke 0 terminate
             (steps Tokenizer.parse [Incoming 7 true] listening)))
     = _connections
         (invoke 0 terminate
            (steps Tokenizer.parse [Incoming 7 true] listening)).
Proof.
  assert (R : _connections (steps Tokenizer.parse [Incoming 7 true] listening)
              !! 7 = Some 0%nat) by (vm_compute; reflexivity).
  destruct (proj2 (termination_signal_idempotent Tokenizer.parse)
                  [Incoming 7 true] 7 0%nat R)
    as (_ & N2 & _ & R2 & _).
  split; assumption.
Defined.

Lemma classification_guarded_by_connected_state_witness :
  dispatch Tokenizer.parse (DownReadyRead "hello") tunnelling
  = (onUp flush
       (onUp (write (bytesAvailable (_downStream tunnelling) +:+ "hello"))
             (downstream_read tunnelling)), []).
Proof.
  refine (proj1 (proj1 (classification_guarded_by_connected_state
                          Tokenizer.parse tunnelling "hello" _) _));
    vm_compute; reflexivity.
Defined.

Lemma terminated_session_ignores_socket_events_witness :
  dispatch Tokenizer.parse (UpReadyRead "late") (fst (terminate tunnelling))
  = (library_side (UpReadyRead "late") (fst (terminate tunnelling)), []).
Proof.
  refine (proj1 (proj2 (proj2 (terminated_session_ignores_socket_events
                                 Tokenizer.parse accepted)))
                (fst (terminate tunnelling)) (UpReadyRead "late") _ _);
    vm_compute; reflexivity.
Defined.

Lemma upstream_receives_only_later_reads_witness :
  written
    (_upStream
       (fst (run Tokenizer.parse
               [DownReadyRead get_request; LookupResult 0 [address];
                UpConnected; DownReadyRead "body"] (new adopted 7))))
  = ["body"].
Proof.
  refine (proj2 (upstream_receives_only_later_reads Tokenizer.parse)
                get_request get_head "example.com" "80" address [] 7 "body"
                _ _ _);
    vm_compute; reflexivity.
Defined.

Lemma upstream_read_relayed_unconditionally_witness :
  calls
    (_downStream
       (fst (run Tokenizer.parse
               [DownReadyRead get_request; LookupResult 0 [address];
                UpConnected; UpReadyRead "HTTP/1.1 200 OK"] (new adopted 7))))
  = [Write "HTTP/1.1 200 OK"; Flush].
Proof.
  refine (proj2 (proj2 (upstream_read_relayed_unconditionally Tokenizer.parse))
                get_request get_head "example.com" "80" address [] 7
                "HTTP/1.1 200 OK" _ _ _ _);
    vm_compute; reflexivity.
Defined.

(** ** Inputs on which the claims as first stated fail *)


(** C4 as stated fails: the target [http://example.com:80] shows a
    scheme, yet the pattern matches it, with [http://example.com] as host;
    the session is not terminated and a lookup for that host is under
    way. *)
Lemma scheme_target_is_accepted :
  has_scheme_path_or_query "http://example.com:80" = true
  /\ Qt.match_host_port (Qt.c_str "http://example.com:80")
     = Some ("http://example.com", "80")
  /\ snd (dispatch Tokenizer.parse (DownReadyRead get_url_request) accepted)
     = []
  /\ map lookup_host
         (lookups (fst (dispatch Tokenizer.parse (DownReadyRead get_url_request)
                                 accepted)))
     = ["http://example.com"]
  /\ unsubscribed
       (fst (dispatch Tokenizer.parse (DownReadyRead get_url_request) accepted))
     = false.
Proof. vm_compute. repeat split. Qed.

(** C7 as stated fails: a second request read before the upstream socket
    is connected is classified like the first, and starts a second lookup;
    when both lookups complete, [connectToHost] is called twice, for two
    different addresses. *)
Lemma second_request_is_classified_again :
  map lookup_host
      (lookups (fst (run Tokenizer.parse
                       [DownReadyRead connect_request;
                        DownReadyRead second_connect_request] accepted)))
  = ["host"; "other"]
  /\ connectCalls
       (_upStream
          (fst (run Tokenizer.parse
                  [DownReadyRead connect_request;
                   DownReadyRead second_connect_request;
                   LookupResult 0 [address];
                   LookupResult 0 [other_address]] accepted)))
     = [(address, 9999); (other_address, 8443)].
Proof. vm_compute. split; reflexivity. Qed.

(** C8 as stated fails: the session reads a CONNECT request and its
    downstream peer disconnects, so that it terminates and leaves the
    registry; its object lives until the deferred deletion.  The lookup
    that completes in between runs its callback on the terminated session,
    which calls [connectToHost] on the upstream socket it had closed. *)
Lemma late_lookup_acts_on_terminated_session :
  _connections
    (steps Tokenizer.parse
       [ToSession 0 (DownReadyRead connect_request); ToSession 0 DownDisconnected]
       one_session) !! 7 = None
  /\ notifications
       (steps Tokenizer.parse
          [ToSession 0 (DownReadyRead connect_request);
           ToSession 0 DownDisconnected] one_session) = [7]
  /\ (calls ∘ _upStream)
       <$> objects
             (steps Tokenizer.parse
                [ToSession 0 (DownReadyRead connect_request);
                 ToSession 0 DownDisconnected] one_session) !! 0%nat
     = Some [BlockSignals true; DisconnectFromHost; Close]
  /\ (calls ∘ _upStream)
       <$> objects
             (steps Tokenizer.parse
                [ToSession 0 (DownReadyRead connect_request);
                 ToSession 0 DownDisconnected;
                 ToSession 0 (LookupResult 0 [address])] one_session) !! 0%nat
     = Some [BlockSignals true; DisconnectFromHost; Close;
             ConnectToHost address 9999]
  /\ (state ∘ _upStream)
       <$> objects
             (steps Tokenizer.parse
                [ToSession 0 (DownReadyRead connect_request);
                 ToSession 0 DownDisconnected;
                 ToSession 0 (LookupResult 0 [address])] one_session) !! 0%nat
     = Some ConnectingState.
Proof. vm_compute. repeat split. Qed.

(** * Beyond the claims

    Properties of the same code that no claim states: the settings and
    the start-up, the order of the socket calls, the relay, the registry
    of the server and the decimal port. *)

(** ** The settings and the start-up *)

Section Configuration.
Import Settings Startup SettingsFacts.

(** X1.  [Settings::read] returns what is stored under the key, or the
    default when nothing is; either way the key is stored afterwards with
    the value returned, a second read (with any default) returns the same
    value and changes nothing, and no other key is touched.  A default
    that had to be stored is also in the file; a key that was present
    leaves memory and file as they were. *)
Theorem settings_read_contract :
  forall (key : string) (d : QVariant) (s : Settings),
    let r := read key d s in
    values (snd r) !! key = Some (fst r)
    /\ (forall d' : QVariant, read key d' (snd r) = r)
    /\ (forall k : string, k <> key -> values (snd r) !! k = values s !! k)
    /\ (values s !! key = None ->
        fst r = d /\ file (snd r) = values (snd r))
    /\ (forall v : QVariant, values s !! key = Some v -> r = (v, s)).
Proof.
  intros key d s r. unfold r.
  split; [apply read_stored|]. split; [|split; [|split]].
  - intros d'. pose proof (read_stored key d s) as E.
    rewrite (read_present key d' _ _ E). now destruct (read key d s).
  - intros k N. now apply read_others.
  - intros E. rewrite (read_missing key d s E). auto.
  - intros v E. now apply read_present.
Qed.


End Configuration.

(** ** Sessions and the server *)

Import Further Cases.
Import LogFacts OrderFacts TidyFacts LiveFacts ObjectFacts NumeralFacts.

Section Extras.
Variable parse : Parser.

(** X3.  When the upstream connection is reported, every lambda connected
    so far runs, in the order of connection: what is written downstream is
    one reply and one flush for each request with method CONNECT whose
    lookup had completed with an address, and nothing for the other
    requests.  Two CONNECT requests read before the connection therefore
    get two replies.  The upstream socket is connected and its call log is
    as before. *)
Theorem connected_runs_every_slot :
  forall c : ProxyConnection,
    signalsBlocked (_upStream c) = false ->
    state (_upStream c) = ConnectingState ->
    let r := dispatch parse UpConnected c in
    snd r = []
    /\ calls (_downStream (fst r))
       = calls (_downStream c) ++ flat_map reply_calls (connectedSlots c)
    /\ state (_upStream (fst r)) = ConnectedState
    /\ calls (_upStream (fst r)) = calls (_upStream c)
    /\ connectedSlots (fst r) = connectedSlots c.
Proof.
  intros c B S r. unfold r, dispatch, delivered. rewrite B, S. simpl.
  rewrite S. simpl. rewrite connected_slots_calls.
  destruct (connected_slots_rest (connectedSlots c)
              (onUp (set_state ConnectedState) c))
    as (U & _ & _ & _ & _ & K & _).
  cbv zeta in U, K. rewrite U, K. repeat split.
Qed.

(** X4.  A read, while the upstream socket is not connected, that the
    parser does not report as complete, be it malformed or only the
    beginning of a request, terminates the session:
    the bytes are logged, both sockets are unsubscribed and closed, the
    signal [terminated] is emitted with the id of the session (unless the
    signals of the session object are blocked), and no lookup and no
    connect attempt is started.
    Nothing is kept for a later read to complete. *)
Theorem incomplete_request_terminates :
  forall (c : ProxyConnection) (data : string) (result : ParseResult)
         (request : Request),
    signalsBlocked (_downStream c) = false ->
    is_connected (state (_upStream c)) = false ->
    parse (bytesAvailable (_downStream c) +:+ data) = (result, request) ->
    result <> ParsingCompleted ->
    let r := dispatch parse (DownReadyRead data) c in
    r = terminate
          (qWarning (ParseFailed (bytesAvailable (_downStream c) +:+ data))
                    (downstream_read c))
    /\ (objectSignalsBlocked c = false -> snd r = [_id c])
    /\ (objectSignalsBlocked c = true -> snd r = [])
    /\ unsubscribed (fst r) = true
    /\ isOpen (_downStream (fst r)) = false
    /\ isOpen (_upStream (fst r)) = false
    /\ bytesAvailable (_downStream (fst r)) = EmptyString
    /\ lookups (fst r) = lookups c
    /\ connectedSlots (fst r) = connectedSlots c
    /\ connectCalls (_upStream (fst r)) = connectCalls (_upStream c).
Proof.
  intros c data result request B C P N r. unfold r.
  rewrite (dispatch_down_read parse data c B). cbv zeta. rewrite C, P. simpl.
  assert (E : completed result = false)
    by (destruct result; [exfalso; now apply N | reflexivity | reflexivity]).
  rewrite E. split; [reflexivity|].
  split; [intros O; simpl; unfold emit_terminated; simpl; now rewrite O|].
  split; [intros O; simpl; unfold emit_terminated; simpl; now rewrite O|].
  repeat split; log_simpl; reflexivity.
Qed.

(** X5.  Whatever events follow, a session whose sockets have not been
    closed never writes to a socket after closing it, and closes a socket
    only in [terminate], that is with both sockets unsubscribed.  (A late
    lookup may still call [connectToHost] on a closed socket; it never
    writes to it.) *)
Theorem never_writes_after_close :
  forall (evs : list Event) (c : ProxyConnection),
    has_close (calls (_downStream c)) = false ->
    has_close (calls (_upStream c)) = false ->
    no_write_after_close (calls (_downStream (fst (run parse evs c)))) = true
    /\ no_write_after_close (calls (_upStream (fst (run parse evs c)))) = true
    /\ (has_close (calls (_downStream (fst (run parse evs c))))
        || has_close (calls (_upStream (fst (run parse evs c)))) = true ->
        unsubscribed (fst (run parse evs c)) = true).
Proof.
  intros evs c D U. apply (run_tidy parse evs c).
  unfold tidy, no_write_after_close.
  rewrite (no_close_ordered _ D), (no_close_ordered _ U), D, U.
  repeat split. discriminate.
Qed.

(** X6.  In an established relay (both sockets subscribed, the upstream
    socket connected, nothing waiting) a run of read events is copied
    verbatim: each downstream read is one write and one flush on the
    upstream socket and each upstream read one write and one flush on the
    downstream socket, in the order of arrival and without merging; no
    signal is emitted and the relay stays established. *)
Theorem relay_copies_in_order :
  forall (evs : list Event) (c : ProxyConnection),
    relaying c = true ->
    forallb is_read evs = true ->
    snd (run parse evs c) = []
    /\ relaying (fst (run parse evs c)) = true
    /\ calls (_upStream (fst (run parse evs c)))
       = calls (_upStream c)
         ++ flat_map (fun d => [Write d; Flush]) (from_downstream evs)
    /\ calls (_downStream (fst (run parse evs c)))
       = calls (_downStream c)
         ++ flat_map (fun d => [Write d; Flush]) (from_upstream evs).
Proof.
  intros evs. induction evs as [|ev rest IH]; intros c R F.
  - simpl. rewrite !app_nil_r. auto.
  - simpl in F. apply andb_prop in F as [I F].
    destruct (relay_step parse ev c R I) as (E1 & R1 & U1 & D1).
    destruct (IH _ R1 F) as (E2 & R2 & U2 & D2).
    cbn [run]. destruct (dispatch parse ev c) as [c1 e1]. cbn [fst snd] in *.
    destruct (run parse rest c1) as [c2 e2]. cbn [fst snd] in *. subst e1 e2.
    split; [reflexivity|]. split; [exact R2|].
    rewrite U2, D2, U1, D1, <- !app_assoc.
    unfold from_downstream, from_upstream. simpl.
    destruct ev; try discriminate; simpl; rewrite ?app_nil_r; auto.
Qed.

(** X7.  In every state the server reaches, an id in the registry leads
    to a session object that exists, carries this id, is live (both
    sockets subscribed, neither closed), can still emit its signal, is not
    scheduled for deletion, and is registered under no other id: the
    registry never holds a terminated or a destroyed session. *)
Theorem registry_holds_live_sessions :
  forall (evs : list ServerEvent) (id : Z) (p : nat),
    _connections (steps parse evs listening) !! id = Some p ->
    (exists c : ProxyConnection,
        objects (steps parse evs listening) !! p = Some c
        /\ _id c = id
        /\ objectSignalsBlocked c = false
        /\ live c = true)
    /\ (p ∉ deferred (steps parse evs listening))
    /\ (forall id' : Z,
           _connections (steps parse evs listening) !! id' = Some p ->
           id' = id).
Proof.
  intros evs id p R.
  destruct (reachable_sound_live parse evs) as ((H & J & _) & L).
  destruct (H id p R) as ((c & O & I & B) & D & _).
  destruct (L id p R) as (c' & O' & Lc). rewrite O in O'. injection O' as <-.
  split; [exists c; auto|]. split; [exact D|].
  intros id' R'. exact (J _ _ _ R' R).
Qed.

(** X8.  Accepting a connection whose id is free registers one new
    session, and when that session terminates the registry is again what
    it was before the accept: the session is notified once and scheduled
    for deletion. *)
Theorem accept_then_terminate_restores_registry :
  forall (s : ProxyServer) (handle : Z),
    _connections s !! Qt.to_int handle = None ->
    let s1 := incomingConnection handle true s in
    let s2 := invoke (allocated s) terminate s1 in
    _connections s1 !! Qt.to_int handle = Some (allocated s)
    /\ size (_connections s1) = S (size (_connections s))
    /\ _connections s2 = _connections s
    /\ notifications s2 = notifications s ++ [Qt.to_int handle]
    /\ deferred s2 = deferred s ++ [allocated s].
Proof.
  intros s handle F s1 s2.
  assert (R : _connections s1 !! Qt.to_int handle = Some (allocated s))
    by (simpl; apply lookup_insert_eq).
  assert (O : objects s1 !! allocated s
              = Some (new adopted (Qt.to_int handle)))
    by (simpl; apply lookup_insert_eq).
  destruct (invoke_terminate_registered (allocated s)
              (new adopted (Qt.to_int handle)) s1 R O eq_refl)
    as (R2 & N2 & _ & D2).
  fold s2 in R2, N2, D2. split; [exact R|]. split; [|split; [|split]].
  - simpl. now apply map_size_insert_None.
  - rewrite R2. simpl. now apply delete_insert_id.
  - rewrite N2. reflexivity.
  - rewrite D2. simpl. rewrite F. simpl. now rewrite app_nil_r.
Qed.

(** X9.  The session id is the connection handle cut to an [int], so two
    handles that are 2^32 apart give the same id.  Accepting a second
    connection under an id that is taken replaces the first session in the
    registry: the registry keeps its size, nobody is notified, and the
    first session, on which [terminate] never ran, is scheduled for
    deletion and gone after it. *)
Theorem same_id_replaces_session :
  forall (s : ProxyServer) (h1 h2 : Z),
    Qt.to_int h1 = Qt.to_int h2 ->
    let s1 := incomingConnection h1 true s in
    let s2 := incomingConnection h2 true s1 in
    Qt.to_int (h1 + 4294967296) = Qt.to_int h1
    /\ _connections s2 !! Qt.to_int h1 = Some (S (allocated s))
    /\ size (_connections s2) = size (_connections s1)
    /\ notifications s2 = notifications s
    /\ objects s2 !! allocated s = Some (new adopted (Qt.to_int h1))
    /\ allocated s ∈ deferred s2
    /\ objects (destroy_deferred s2) !! allocated s = None.
Proof.
  intros s h1 h2 E s1 s2. split; [apply to_int_period|].
  destruct (incomingConnection_accepts h1 s) as (R1 & O1 & D1 & A1 & N1).
  destruct (incomingConnection_accepts h2 s1) as (R2 & O2 & D2 & A2 & N2).
  fold s1 in R1, O1, D1, A1, N1. fold s2 in R2, O2, D2, A2, N2.
  rewrite <- E in R2, O2, D2.
  assert (D : allocated s ∈ deferred s2).
  { rewrite D2, R1, lookup_insert_eq. apply elem_of_app. right. constructor. }
  split; [|split; [|split; [|split; [|split; [exact D|]]]]].
  - rewrite R2. apply lookup_insert_eq.
  - rewrite R2, R1, insert_insert_eq, !map_size_insert. reflexivity.
  - now rewrite N2, N1.
  - rewrite O2, A1, O1. rewrite lookup_insert_ne by lia.
    apply lookup_insert_eq.
  - now apply destroy_deferred_gone.
Qed.

(** X10.  In every state the server reaches, an event for a registered
    session changes no other session object and no other entry of the
    registry, and notifies the registry at most once, with the id of that
    session. *)
Theorem session_event_is_isolated :
  forall (evs : list ServerEvent) (id : Z) (p : nat) (e : Event),
    _connections (steps parse evs listening) !! id = Some p ->
    let s := steps parse evs listening in
    let s' := step parse (ToSession p e) s in
    (forall q : nat, q <> p -> objects s' !! q = objects s !! q)
    /\ (forall id' : Z, id' <> id -> _connections s' !! id' = _connections s !! id')
    /\ (notifications s' = notifications s
        \/ notifications s' = notifications s ++ [id]).
Proof.
  intros evs id p e R s s'.
  destruct (reachable_sound_live parse evs) as ((H & _) & _).
  destruct (H id p R) as ((c & O & I & B) & _). fold s in R, O.
  unfold s'. simpl. unfold invoke. rewrite O.
  destruct (dispatch_identity parse e c) as (_ & _ & Em).
  destruct (dispatch parse e c) as [c' em]. cbn [fst snd] in *.
  destruct Em as [->|[-> _]]; cbn [foldl].
  - split; [|split; [|left]]; simpl; auto.
    intros q N. now apply lookup_insert_ne.
  - rewrite I. unfold onConnectionTerminate, set_object. cbn [_connections].
    rewrite R. simpl. split; [|split; [|right; reflexivity]].
    + intros q N. rewrite lookup_alter_ne by congruence.
      now apply lookup_insert_ne.
    + intros id' N. now apply lookup_delete_ne.
Qed.

(** X11.  In every state the server reaches, when either peer of a
    registered session disconnects, the session terminates: its id leaves
    the registry, the registry is notified once, the sockets are
    unsubscribed and closed, and the object is scheduled for deletion.
    Whatever events reach that object afterwards, the registry is not
    notified again and does not change. *)
Theorem disconnect_unregisters_once :
  forall (evs : list ServerEvent) (id : Z) (p : nat) (ev : Event),
    _connections (steps parse evs listening) !! id = Some p ->
    ev = DownDisconnected \/ ev = UpDisconnected ->
    let s := steps parse evs listening in
    let t := step parse (ToSession p ev) s in
    _connections t = delete id (_connections s)
    /\ notifications t = notifications s ++ [id]
    /\ deferred t = deferred s ++ [p]
    /\ (exists c : ProxyConnection,
           objects t !! p = Some c
           /\ unsubscribed c = true
           /\ isOpen (_downStream c) = false
           /\ isOpen (_upStream c) = false)
    /\ (forall later : list Event,
           notifications (steps parse (map (ToSession p) later) t)
           = notifications t
           /\ _connections (steps parse (map (ToSession p) later) t)
              = _connections t).
Proof.
  intros evs id p ev R Ev s t.
  destruct (reachable_sound_live parse evs) as ((H & _) & L).
  destruct (H id p R) as ((c & O & I & B) & _).
  destruct (L id p R) as (c0 & O0 & Lc). rewrite O in O0. injection O0 as <-.
  fold s in R, O.
  assert (Fl : signalsBlocked (_downStream c) = false
               /\ signalsBlocked (_upStream c) = false).
  { unfold live in Lc. apply andb_prop in Lc as [Lc _].
    apply andb_prop in Lc as [Lc _]. apply andb_prop in Lc as [D U].
    now apply negb_true_iff in D, U. }
  destruct Fl as [FD FU].
  assert (T : exists c1, dispatch parse ev c = terminate c1
                         /\ _id c1 = _id c
                         /\ objectSignalsBlocked c1 = objectSignalsBlocked c).
  { destruct Ev as [-> | ->]; unfold dispatch, delivered;
      rewrite ?FD, ?FU; simpl; eexists; repeat split. }
  destruct T as (c1 & Ed & I1 & B1).
  assert (Et : t = onConnectionTerminate id
                     (set_object p (fst (terminate c1)) s)).
  { unfold t. simpl. unfold invoke. rewrite O, Ed.
    change (terminate c1) with (fst (terminate c1), emit_terminated (fst (terminate c1))).
    unfold emit_terminated. simpl. rewrite B1, B, I1, I. reflexivity. }
  assert (Ot : objects t !! p
               = Some (set_objectSignalsBlocked true (fst (terminate c1)))).
  { rewrite Et. unfold onConnectionTerminate, set_object. cbn [_connections].
    rewrite R. simpl. now rewrite lookup_alter_eq, lookup_insert_eq. }
  split; [|split; [|split; [|split]]].
  - rewrite Et, onConnectionTerminate_registry. reflexivity.
  - rewrite Et, onConnectionTerminate_notified. reflexivity.
  - rewrite Et. unfold onConnectionTerminate, set_object. cbn [_connections].
    rewrite R. reflexivity.
  - eexists. split; [exact Ot|]. repeat split.
  - intros later. exact (blocked_object_steps parse p later _ t Ot eq_refl).
Qed.

(** X12.  A target made of a host text (without line feed and NUL), a
    colon and the decimal numeral of a port is taken apart into that host
    and that numeral.  The session looks up that host, and when the lookup
    gives an address it calls [connectToHost] for the first address with
    the port: the number itself below 65536, its remainder modulo 65536 up
    to the largest [int], and 0 beyond.  No port is rejected for being out
    of range. *)
Theorem target_port_round_trip :
  forall (data : string) (request : Request) (h : string) (n : Z)
         (a : QHostAddress) (rest : list QHostAddress) (id : Z),
    parse data = (ParsingCompleted, request) ->
    supported (method request) = true ->
    uri request = h +:+ ":" +:+ Qt.number n ->
    contains h LF = false ->
    contains h NUL = false ->
    0 <= n ->
    Qt.match_host_port (Qt.c_str (uri request)) = Some (h, Qt.number n)
    /\ map lookup_host
           (lookups (fst (dispatch parse (DownReadyRead data) (new adopted id))))
       = [h]
    /\ connectCalls
         (_upStream
            (fst (run parse [DownReadyRead data; LookupResult 0 (a :: rest)]
                      (new adopted id))))
       = [(a, if n <=? Qt.INT_MAX then n mod 65536 else 0)]
    /\ (n < 65536 -> (if n <=? Qt.INT_MAX then n mod 65536 else 0) = n).
Proof.
  intros data request h n a rest id P S U HL HN N.
  destruct (number_value n N) as (D & NE & V).
  assert (M : Qt.match_host_port (Qt.c_str (uri request))
              = Some (h, Qt.number n)).
  { rewrite U, c_str_without_NUL.
    - now apply match_host_port_complete.
    - rewrite !contains_append, HN. simpl.
      now apply digits_without. }
  assert (T : Qt.to_quint16 (Qt.toInt (Qt.number n))
              = if n <=? Qt.INT_MAX then n mod 65536 else 0).
  { unfold Qt.toInt. rewrite V. unfold Qt.to_quint16.
    destruct (n <=? Qt.INT_MAX); reflexivity. }
  split; [exact M|]. split; [|split].
  - unfold dispatch. simpl. unfold downStreamReadyRead. simpl.
    rewrite append_nil, P. simpl. now rewrite S, M.
  - unfold run, dispatch. simpl. unfold downStreamReadyRead. simpl.
    rewrite append_nil, P. simpl. rewrite S, M. simpl.
    unfold connectCalls. simpl. now rewrite T.
  - intros L. assert ((n <=? Qt.INT_MAX) = true) as ->
      by (apply Z.leb_le; unfold Qt.INT_MAX; lia).
    apply Z.mod_small. lia.
Qed.

End Extras.

(** ** The further properties on concrete inputs *)

(** X1 on an empty file, where the default is returned and stored, and on
    a file with a port, which is returned and left alone. *)
Lemma settings_read_contract_witness :
  (fst (Settings.read Settings.kPort (Settings.VInt 8888) (Settings.open ∅))
   = Settings.VInt 8888
   /\ Settings.file
        (snd (Settings.read Settings.kPort (Settings.VInt 8888)
                            (Settings.open ∅)))
      = Settings.values
          (snd (Settings.read Settings.kPort (Settings.VInt 8888)
                              (Settings.open ∅))))
  /\ Settings.values
       (snd (Settings.read Settings.kPort (Settings.VInt 8888)
                           (Settings.open ∅))) !! Settings.kAddress
     = Settings.values (Settings.open ∅) !! Settings.kAddress
  /\ Settings.read Settings.kPort (Settings.VInt 8888)
                   (Settings.open port_only)
     = (Settings.VString "3128", Settings.open port_only).
Proof.
  split; [|split].
  - refine (proj1 (proj2 (proj2 (proj2
              (settings_read_contract Settings.kPort (Settings.VInt 8888)
                                      (Settings.open ∅))))) _).
    vm_compute; reflexivity.
  - refine (proj1 (proj2 (proj2
              (settings_read_contract Settings.kPort (Settings.VInt 8888)
                                      (Settings.open ∅))))
              Settings.kAddress _).
    vm_compute; discriminate.
  - refine (proj2 (proj2 (proj2 (proj2
              (settings_read_contract Settings.kPort (Settings.VInt 8888)
                                      (Settings.open port_only)))))
              (Settings.VString "3128") _).
    vm_compute; reflexivity.
Defined.


(** X3 on the session that waits for the connection. *)
Lemma connected_runs_every_slot_witness :
  snd (dispatch Tokenizer.parse UpConnected connecting) = []
  /\ calls (_downStream (fst (dispatch Tokenizer.parse UpConnected connecting)))
     = calls (_downStream connecting)
       ++ flat_map reply_calls (connectedSlots connecting)
  /\ state (_upStream (fst (dispatch Tokenizer.parse UpConnected connecting)))
     = ConnectedState
  /\ calls (_upStream (fst (dispatch Tokenizer.parse UpConnected connecting)))
     = calls (_upStream connecting)
  /\ connectedSlots (fst (dispatch Tokenizer.parse UpConnected connecting))
     = connectedSlots connecting.
Proof.
  refine (connected_runs_every_slot Tokenizer.parse connecting _ _);
    vm_compute; reflexivity.
Defined.

(** X4 on the beginning of a request. *)
Lemma incomplete_request_terminates_witness :
  snd (dispatch Tokenizer.parse (DownReadyRead partial_request) accepted)
  = [_id accepted]
  /\ unsubscribed
       (fst (dispatch Tokenizer.parse (DownReadyRead partial_request) accepted))
     = true.
Proof.
  pose proof (incomplete_request_terminates Tokenizer.parse accepted
                partial_request ParsingIncomplete
                (snd (Tokenizer.parse partial_request))) as H.
  refine ((fun K => conj (proj1 (proj2 K) _)
                      (proj1 (proj2 (proj2 (proj2 K)))))
            (H _ _ _ _)).
  - vm_compute; reflexivity.
  - vm_compute; reflexivity.
  - vm_compute; reflexivity.
  - vm_compute; reflexivity.
  - discriminate.
Defined.

(** X5 on a session that is closed by a disconnect and then gets a late
    lookup result and a read. *)
Lemma never_writes_after_close_witness :
  no_write_after_close
    (calls (_downStream
       (fst (run Tokenizer.parse
               [DownReadyRead connect_request; DownDisconnected;
                LookupResult 0 [address]; UpReadyRead "late"] accepted))))
  = true
  /\ no_write_after_close
       (calls (_upStream
          (fst (run Tokenizer.parse
                  [DownReadyRead connect_request; DownDisconnected;
                   LookupResult 0 [address]; UpReadyRead "late"] accepted))))
     = true
  /\ unsubscribed
       (fst (run Tokenizer.parse
               [DownReadyRead connect_request; DownDisconnected;
                LookupResult 0 [address]; UpReadyRead "late"] accepted))
     = true.
Proof.
  pose proof (never_writes_after_close Tokenizer.parse
                [DownReadyRead connect_request; DownDisconnected;
                 LookupResult 0 [address]; UpReadyRead "late"] accepted) as H.
  refine ((fun K => conj (proj1 K)
                      (conj (proj1 (proj2 K)) (proj2 (proj2 K) _)))
            (H _ _)).
  - vm_compute; reflexivity.
  - vm_compute; reflexivity.
  - vm_compute; reflexivity.
Defined.

(** X6 on the tunnel of scenario A. *)
Lemma relay_copies_in_order_witness :
  snd (run Tokenizer.parse relayed tunnelling) = []
  /\ relaying (fst (run Tokenizer.parse relayed tunnelling)) = true
  /\ calls (_upStream (fst (run Tokenizer.parse relayed tunnelling)))
     = calls (_upStream tunnelling)
       ++ flat_map (fun d => [Write d; Flush]) (from_downstream relayed)
  /\ calls (_downStream (fst (run Tokenizer.parse relayed tunnelling)))
     = calls (_downStream tunnelling)
       ++ flat_map (fun d => [Write d; Flush]) (from_upstream relayed).
Proof.
  refine (relay_copies_in_order Tokenizer.parse relayed tunnelling _ _);
    vm_compute; reflexivity.
Defined.

(** X7 on the server after two connections, the first of which has
    terminated. *)
Lemma registry_holds_live_sessions_witness :
  (exists c : ProxyConnection,
      objects
        (steps Tokenizer.parse
           [Incoming 7 true; Incoming 9 true; ToSession 0 DownDisconnected]
           listening) !! 1%nat = Some c
      /\ _id c = 9
      /\ objectSignalsBlocked c = false
      /\ live c = true)
  /\ (1%nat ∉ deferred
        (steps Tokenizer.parse
           [Incoming 7 true; Incoming 9 true; ToSession 0 DownDisconnected]
           listening))
  /\ (forall id' : Z,
         _connections
           (steps Tokenizer.parse
              [Incoming 7 true; Incoming 9 true; ToSession 0 DownDisconnected]
              listening) !! id' = Some 1%nat ->
         id' = 9).
Proof.
  refine (registry_holds_live_sessions Tokenizer.parse
            [Incoming 7 true; Incoming 9 true; ToSession 0 DownDisconnected]
            9 1%nat _).
  vm_compute; reflexivity.
Defined.

(** X8 on the first connection of a server. *)
Lemma accept_then_terminate_restores_registry_witness :
  _connections (incomingConnection 7 true listening) !! Qt.to_int 7
  = Some (allocated listening)
  /\ size (_connections (incomingConnection 7 true listening))
     = S (size (_connections listening))
  /\ _connections
       (invoke (allocated listening) terminate
               (incomingConnection 7 true listening))
     = _connections listening
  /\ notifications
       (invoke (allocated listening) terminate
               (incomingConnection 7 true listening))
     = notifications listening ++ [Qt.to_int 7]
  /\ deferred
       (invoke (allocated listening) terminate
               (incomingConnection 7 true listening))
     = deferred listening ++ [allocated listening].
Proof.
  refine (accept_then_terminate_restores_registry listening 7 _).
  vm_compute; reflexivity.
Defined.

(** X9 on the handles 7 and 7 + 2^32. *)
Lemma same_id_replaces_session_witness :
  Qt.to_int (7 + 4294967296) = Qt.to_int 7
  /\ _connections
       (incomingConnection far_handle true
          (incomingConnection 7 true listening)) !! Qt.to_int 7
     = Some (S (allocated listening))
  /\ size (_connections
             (incomingConnection far_handle true
                (incomingConnection 7 true listening)))
     = size (_connections (incomingConnection 7 true listening))
  /\ notifications
       (incomingConnection far_handle true
          (incomingConnection 7 true listening))
     = notifications listening
  /\ objects
       (incomingConnection far_handle true
          (incomingConnection 7 true listening)) !! allocated listening
     = Some (new adopted (Qt.to_int 7))
  /\ allocated listening
     ∈ deferred
         (incomingConnection far_handle true
            (incomingConnection 7 true listening))
  /\ objects
       (destroy_deferred
          (incomingConnection far_handle true
             (incomingConnection 7 true listening))) !! allocated listening
     = None.
Proof.
  refine (same_id_replaces_session listening 7 far_handle _).
  vm_compute; reflexivity.
Defined.

(** X10 on a read for the second of two sessions. *)
Lemma session_event_is_isolated_witness :
  objects
    (step Tokenizer.parse (ToSession 1 (DownReadyRead partial_request))
       (steps Tokenizer.parse [Incoming 7 true; Incoming 9 true] listening))
    !! 0%nat
  = objects
      (steps Tokenizer.parse [Incoming 7 true; Incoming 9 true] listening)
      !! 0%nat
  /\ _connections
       (step Tokenizer.parse (ToSession 1 (DownReadyRead partial_request))
          (steps Tokenizer.parse [Incoming 7 true; Incoming 9 true] listening))
       !! 7
     = _connections
         (steps Tokenizer.parse [Incoming 7 true; Incoming 9 true] listening)
         !! 7.
Proof.
  pose proof (session_event_is_isolated Tokenizer.parse
                [Incoming 7 true; Incoming 9 true] 9 1%nat
                (DownReadyRead partial_request)) as H.
  refine ((fun K => conj (proj1 K 0%nat _) (proj1 (proj2 K) 7 _)) (H _)).
  - discriminate.
  - discriminate.
  - vm_compute; reflexivity.
Defined.

(** X11 on a client that disconnects from the only session. *)
Lemma disconnect_unregisters_once_witness :
  _connections
    (step Tokenizer.parse (ToSession 0 DownDisconnected)
       (steps Tokenizer.parse [Incoming 7 true] listening))
  = delete 7 (_connections (steps Tokenizer.parse [Incoming 7 true] listening))
  /\ notifications
       (step Tokenizer.parse (ToSession 0 DownDisconnected)
          (steps Tokenizer.parse [Incoming 7 true] listening))
     = notifications (steps Tokenizer.parse [Incoming 7 true] listening) ++ [7].
Proof.
  pose proof (disconnect_unregisters_once Tokenizer.parse [Incoming 7 true]
                7 0%nat DownDisconnected) as H.
  refine ((fun K => conj (proj1 K) (proj1 (proj2 K))) (H _ _)).
  - vm_compute; reflexivity.
  - left; reflexivity.
Defined.

(** X12 on the target [example.com:80]. *)
Lemma target_port_round_trip_witness :
  Qt.match_host_port (Qt.c_str (uri get_head))
  = Some ("example.com", Qt.number 80)
  /\ map lookup_host
         (lookups (fst (dispatch Tokenizer.parse (DownReadyRead get_request)
                                 (new adopted 7))))
     = ["example.com"]
  /\ connectCalls
       (_upStream
          (fst (run Tokenizer.parse
                  [DownReadyRead get_request; LookupResult 0 (address :: [])]
                  (new adopted 7))))
     = [(address, if 80 <=? Qt.INT_MAX then 80 mod 65536 else 0)]
  /\ (80 < 65536 -> (if 80 <=? Qt.INT_MAX then 80 mod 65536 else 0) = 80).
Proof.
  refine (target_port_round_trip Tokenizer.parse get_request get_head
            "example.com" 80 address [] 7 _ _ _ _ _ _);
    try (vm_compute; reflexivity).
  vm_compute; discriminate.
Defined.
